(** * DataTable: the derived-state pipeline and the interaction handlers

    A shallow embedding of [src/DataTable.tsx]: the filter, sort and
    paginate stages, the page-button window, and the handlers that
    mutate the sort state, the page number and the selection set.

    JavaScript values are modelled by [value]; a record (a JS object) is
    a finite map from property names to values, a missing property
    reading as [VUndefined].  Numbers are restricted to integers.  The
    string operations whose result depends on Unicode tables or on the
    host locale ([toLowerCase], [trim], [localeCompare]) are parameters
    of the development; [Module Latin] gives ASCII instances used to run
    the definitions on concrete tables.

    The component state is the tuple of its [useState] cells; the
    hovered row, which only picks a background colour, is left out.
    One render is a function of props and state; a handler maps a state
    to the next one and to the callbacks it invoked. *)

From Stdlib Require Import ZArith String Ascii List Permutation DecimalString.
From stdpp Require Import base gmap sets list strings sorting.

Local Open Scope string_scope.
Local Open Scope Z_scope.

(** ** JavaScript values *)

Inductive value :=
  | VUndefined
  | VNull
  | VBoolean (b : bool)
  | VNumber (n : Z)
  | VString (s : string).

#[global] Instance value_eq_dec : EqDecision value.
Proof. solve_decision. Defined.

Definition value_to_sum (v : value) : unit + unit + bool + Z + string :=
  match v with
  | VUndefined => inl (inl (inl (inl tt)))
  | VNull => inl (inl (inl (inr tt)))
  | VBoolean b => inl (inl (inr b))
  | VNumber n => inl (inr n)
  | VString s => inr s
  end.

Definition value_of_sum (x : unit + unit + bool + Z + string) : value :=
  match x with
  | inl (inl (inl (inl _))) => VUndefined
  | inl (inl (inl (inr _))) => VNull
  | inl (inl (inr b)) => VBoolean b
  | inl (inr n) => VNumber n
  | inr s => VString s
  end.

#[global] Instance value_countable : Countable value.
Proof.
  apply (inj_countable' value_to_sum value_of_sum).
  by intros [].
Defined.

(** [val != null]: loose inequality with [null] is false exactly for
    [null] and [undefined]. *)
Definition isNullish (v : value) : bool :=
  match v with
  | VUndefined | VNull => true
  | _ => false
  end.

(** [String(val)]. *)
Definition String_ (v : value) : string :=
  match v with
  | VUndefined => "undefined"
  | VNull => "null"
  | VBoolean true => "true"
  | VBoolean false => "false"
  | VNumber n => NilZero.string_of_int (Z.to_int n)
  | VString s => s
  end.

(** ** Records and columns *)

Abbreviation Row := (gmap string value).

(** [row[key]]: reading a property that the object lacks gives
    [undefined]. *)
Definition prop (row : Row) (key : string) : value :=
  default VUndefined (row !! key).

(** [r.id] *)
Definition id_of (r : Row) : value := prop r "id".

Inductive SortDirection := asc | desc.

#[global] Instance SortDirection_eq_dec : EqDecision SortDirection.
Proof. solve_decision. Defined.

(** [interface Column<T>]; an absent [sortable] or [filterable] reads as
    [false].  [width] and [render] only affect the markup. *)
Record Column := {
  key : string;
  title : string;
  sortable : bool;
  filterable : bool;
}.

(** ** String search *)

(** [startsWith s q]: [q] is a prefix of [s]. *)
Fixpoint startsWith (s q : string) {struct q} : bool :=
  match q, s with
  | EmptyString, _ => true
  | String c q', String d s' => if decide (c = d) then startsWith s' q' else false
  | String _ _, EmptyString => false
  end.

(** [s.includes(q)]: [q] occurs in [s] at some position. *)
Fixpoint includes (s q : string) : bool :=
  if startsWith s q then true
  else match s with
       | EmptyString => false
       | String _ s' => includes s' q
       end.

(** ** Array builtins *)

(** [Array.prototype.sort] is a stable sort whose algorithm is left to
    the engine.  It is modelled by the insertion step engines use on
    short arrays: elements are taken left to right and each [pivot] is
    placed in front of the first element [y] of the already ordered
    prefix for which [comparefn(pivot, y) < 0]. *)
Fixpoint insertSorted {A} (comparefn : A → A → Z) (pivot : A) (l : list A)
    : list A :=
  match l with
  | [] => [pivot]
  | y :: l' =>
      if comparefn pivot y <? 0 then pivot :: y :: l'
      else y :: insertSorted comparefn pivot l'
  end.

Definition Array_sort {A} (comparefn : A → A → Z) (l : list A) : list A :=
  fold_left (fun acc x => insertSorted comparefn x acc) l [].

(** The relative index of [Array.prototype.slice]: a negative argument
    counts from the end, and the result stays within [0, len]. *)
Definition relativeIndex (len i : Z) : Z :=
  if i <? 0 then Z.max (len + i) 0 else Z.min i len.

(** [l.slice(start, end)] *)
Definition Array_slice {A} (l : list A) (start end_ : Z) : list A :=
  let len := Z.of_nat (length l) in
  let k := relativeIndex len start in
  let final := relativeIndex len end_ in
  take (Z.to_nat (final - k)) (drop (Z.to_nat k) l).

(** [Math.ceil(n / p)] for integers [n] and [p > 0]. *)
Definition ceil_div (n p : Z) : Z := - ((- n) / p).

(** ** Props, state, callbacks and events *)

Record Props := {
  columns : list Column;
  data : list Row;
  pageSize : Z;
  searchable : bool;
  selectable : bool;
  loading : bool;
  onSelectionChange : bool;   (* is the callback supplied *)
  onSort : bool;              (* is the callback supplied *)
}.

Record State := {
  search : string;
  sortKey : option string;
  sortDir : option SortDirection;
  currentPage : Z;
  selected : gset value;
}.

(** What a handler hands to the caller: [onSelectionChange(rows)] and
    [onSort(key, direction)]. *)
Inductive Callback :=
  | SelectionChange (selectedRows : list Row)
  | SortChange (k : string) (direction : option SortDirection).

(** What the user can do with the rendered markup. *)
Inductive Event :=
  | EvSearch (v : string)
  | EvHeader (col : Column)
  | EvRow (id : value)
  | EvSelectAll
  | EvPrev
  | EvNext
  | EvPage (page : Z).

(** ** ASCII instances of the host string operations *)

Module Latin.

Definition lower_ascii (c : ascii) : ascii :=
  let n := nat_of_ascii c in
  if (65 <=? n)%nat && (n <=? 90)%nat then ascii_of_nat (n + 32) else c.

Fixpoint toLowerCase (s : string) : string :=
  match s with
  | EmptyString => EmptyString
  | String c s' => String (lower_ascii c) (toLowerCase s')
  end.

Definition isSpace (c : ascii) : bool :=
  let n := nat_of_ascii c in
  ((9 <=? n)%nat && (n <=? 13)%nat) || (n =? 32)%nat.

Fixpoint trimStart (s : string) : string :=
  match s with
  | EmptyString => EmptyString
  | String c s' => if isSpace c then trimStart s' else s
  end.

Fixpoint trimEnd (s : string) : string :=
  match s with
  | EmptyString => EmptyString
  | String c s' =>
      match trimEnd s' with
      | EmptyString => if isSpace c then EmptyString else String c EmptyString
      | t => String c t
      end
  end.

Definition trim (s : string) : string := trimEnd (trimStart s).

(** Comparison by character code, standing in for a collation. *)
Definition localeCompare (x y : string) : Z :=
  match String.compare x y with
  | Lt => -1
  | Eq => 0
  | Gt => 1
  end.

End Latin.

(** ** A small table to run the definitions on *)

Module Sample.

Definition nameColumn : Column :=
  {| key := "name"; title := "Name"; sortable := true; filterable := false |}.

Definition row (i : Z) (n : string) : Row :=
  <["id" := VNumber i]> (<["name" := VString n]> ∅).

(** A record without a [name] property. *)
Definition anonymous (i : Z) : Row := <["id" := VNumber i]> ∅.

Definition people : list Row :=
  [row 1 "Bob"; anonymous 7; row 2 "Alice"; anonymous 8; row 3 "Carl"].

Definition props (d : list Row) (size : Z) : Props :=
  {| columns := [nameColumn]; data := d; pageSize := size;
     searchable := true; selectable := true; loading := false;
     onSelectionChange := true; onSort := true |}.

End Sample.

(** ** The component *)

Section DataTable.

(** Host operations: [s.toLowerCase()], [s.trim()] and
    [x.localeCompare(y, undefined, { numeric: true })]. *)
Variable toLowerCase : string → string.
Variable trim : string → string.
Variable localeCompare : string → string → Z.

(** *** Filter *)

(** The predicate handed to [columns.some]. *)
Definition cellMatches (q : string) (row : Row) (col : Column) : bool :=
  let val := prop row (key col) in
  negb (isNullish val) && includes (toLowerCase (String_ val)) q.

Definition filtered (columns : list Column) (data : list Row)
    (search : string) : list Row :=
  if decide (trim search = "") then data
  else
    let q := toLowerCase search in
    List.filter (fun row => existsb (cellMatches q row) columns) data.

(** *** Sort *)

(** The comparator handed to [sort]. *)
Definition compareRows (sortKey : string) (sortDir : option SortDirection)
    (a b : Row) : Z :=
  let aVal := prop a sortKey in
  let bVal := prop b sortKey in
  if isNullish aVal then 1
  else if isNullish bVal then -1
  else
    let cmp := localeCompare (String_ aVal) (String_ bVal) in
    if decide (sortDir = Some asc) then cmp else - cmp.

(** [!sortKey] holds for [null] and for the empty string; [!sortDir]
    holds for [null] only. *)
Definition sorted (filtered : list Row) (sortKey : option string)
    (sortDir : option SortDirection) : list Row :=
  match sortKey, sortDir with
  | Some k, Some _ =>
      if decide (k = "") then filtered
      else Array_sort (compareRows k sortDir) filtered
  | _, _ => filtered
  end.

(** *** Paginate *)

Definition totalPages (sorted : list Row) (pageSize : Z) : Z :=
  Z.max 1 (ceil_div (Z.of_nat (length sorted)) pageSize).

Definition safeCurrentPage (currentPage totalPages : Z) : Z :=
  Z.min currentPage totalPages.

Definition paginated (sorted : list Row) (safeCurrentPage pageSize : Z)
    : list Row :=
  let start := (safeCurrentPage - 1) * pageSize in
  Array_slice sorted start (start + pageSize).

(** The numbered buttons: the array built by [Array.from], a [None]
    entry being a [null] that renders nothing. *)
Definition pageButtons (safeCurrentPage totalPages : Z) : list (option Z) :=
  (fun i =>
     let page :=
       Z.max 1 (Z.min (safeCurrentPage - 2) (totalPages - 4)) + i in
     if totalPages <? page then None else Some page)
  <$> seqZ 0 (Z.min 5 totalPages).

(** *** Derived values of one render *)

(** The [useState] defaults. *)
Definition initial : State :=
  {| search := ""; sortKey := None; sortDir := None;
     currentPage := 1; selected := ∅ |}.

Definition view_filtered (p : Props) (st : State) : list Row :=
  filtered (columns p) (data p) (search st).

Definition view_sorted (p : Props) (st : State) : list Row :=
  sorted (view_filtered p st) (sortKey st) (sortDir st).

Definition view_totalPages (p : Props) (st : State) : Z :=
  totalPages (view_sorted p st) (pageSize p).

Definition view_safeCurrentPage (p : Props) (st : State) : Z :=
  safeCurrentPage (currentPage st) (view_totalPages p st).

Definition view_paginated (p : Props) (st : State) : list Row :=
  paginated (view_sorted p st) (view_safeCurrentPage p st) (pageSize p).

(** *** Handlers

    A handler returns the next state and the callbacks it invoked. *)

Definition setSort (st : State) (k : option string)
    (dir : option SortDirection) : State :=
  {| search := search st; sortKey := k; sortDir := dir;
     currentPage := currentPage st; selected := selected st |}.

Definition setSelected (st : State) (next : gset value) : State :=
  {| search := search st; sortKey := sortKey st; sortDir := sortDir st;
     currentPage := currentPage st; selected := next |}.

Definition setCurrentPage (st : State) (page : Z) : State :=
  {| search := search st; sortKey := sortKey st; sortDir := sortDir st;
     currentPage := page; selected := selected st |}.

Definition setSearch (st : State) (v : string) : State :=
  {| search := v; sortKey := sortKey st; sortDir := sortDir st;
     currentPage := currentPage st; selected := selected st |}.

Definition handleSort (p : Props) (st : State) (k : string)
    : State * list Callback :=
  let dir :=
    if decide (sortKey st = Some k) then
      match sortDir st with
      | Some asc => Some desc
      | Some desc => None
      | None => Some asc
      end
    else Some asc in
  (setSort st (match dir with Some _ => Some k | None => None end) dir,
   if onSort p then [SortChange k dir] else []).

(** [data.filter((r) => next.has(r.id))] *)
Definition selectedRows (data : list Row) (next : gset value) : list Row :=
  List.filter (fun r => bool_decide (id_of r ∈ next)) data.

Definition toggleRow (p : Props) (st : State) (id : value)
    : State * list Callback :=
  let prev := selected st in
  let next := if decide (id ∈ prev) then prev ∖ {[id]} else {[id]} ∪ prev in
  (setSelected st next,
   if onSelectionChange p then [SelectionChange (selectedRows (data p) next)]
   else []).

Definition toggleAll (p : Props) (st : State) : State * list Callback :=
  let prev := selected st in
  let allIds := id_of <$> view_paginated p st in
  let allSelected := forallb (fun id => bool_decide (id ∈ prev)) allIds in
  let next :=
    fold_left (fun s id => if allSelected then s ∖ {[id]} else {[id]} ∪ s)
              allIds prev in
  (setSelected st next,
   if onSelectionChange p then [SelectionChange (selectedRows (data p) next)]
   else []).

(** The search box's [onChange]. *)
Definition onSearchChange (st : State) (v : string) : State :=
  setCurrentPage (setSearch st v) 1.

Definition onPrev (st : State) : State :=
  setCurrentPage st (Z.max 1 (currentPage st - 1)).

Definition onNext (p : Props) (st : State) : State :=
  setCurrentPage st (Z.min (view_totalPages p st) (currentPage st + 1)).

(** *** Events

    [enabled] says that the control exists in the render of [st] and is
    not disabled. *)

Definition paginationShown (p : Props) (st : State) : bool :=
  negb (loading p) && (pageSize p <? Z.of_nat (length (view_sorted p st))).

Definition enabled (p : Props) (st : State) (ev : Event) : Prop :=
  match ev with
  | EvSearch _ => searchable p = true
  | EvHeader col => col ∈ columns p
  | EvRow id =>
      selectable p = true ∧ loading p = false
      ∧ id ∈ id_of <$> view_paginated p st
  | EvSelectAll => selectable p = true
  | EvPrev => paginationShown p st = true ∧ 1 < view_safeCurrentPage p st
  | EvNext =>
      paginationShown p st = true
      ∧ view_safeCurrentPage p st < view_totalPages p st
  | EvPage page =>
      paginationShown p st = true
      ∧ Some page ∈ pageButtons (view_safeCurrentPage p st)
                                (view_totalPages p st)
  end.

Definition step (p : Props) (st : State) (ev : Event)
    : State * list Callback :=
  match ev with
  | EvSearch v => (onSearchChange st v, [])
  | EvHeader col => if sortable col then handleSort p st (key col) else (st, [])
  | EvRow id => toggleRow p st id
  | EvSelectAll => toggleAll p st
  | EvPrev => (onPrev st, [])
  | EvNext => (onNext p st, [])
  | EvPage page => (setCurrentPage st page, [])
  end.

(** The states the component can be in: the props may differ from one
    render to the next. *)
Inductive reachable : State → Prop :=
  | reachable_initial : reachable initial
  | reachable_step p st ev :
      reachable st → enabled p st ev → reachable (step p st ev).1.

(** *** What the markup shows *)

(** [sortIcon(key)]: the glyph after the title of a sortable column. *)
Definition sortIcon (st : State) (k : string) : string :=
  if decide (sortKey st = Some k) then
    if decide (sortDir st = Some asc) then " ↑" else " ↓"
  else " ↕".

(** The [aria-sort] attribute of a header cell. *)
Definition ariaSort (st : State) (col : Column) : string :=
  if decide (sortKey st = Some (key col)) then
    if decide (sortDir st = Some asc) then "ascending" else "descending"
  else "none".

(** The [checked] attribute of the select-all checkbox. *)
Definition selectAllChecked (p : Props) (st : State) : bool :=
  (0 <? Z.of_nat (length (view_paginated p st)))
  && forallb (fun r => bool_decide (id_of r ∈ selected st))
             (view_paginated p st).

(** The text of a cell of a column without a custom renderer:
    [String(row[col.key] ?? '')]. *)
Definition cellText (row : Row) (col : Column) : string :=
  let v := prop row (key col) in
  String_ (if isNullish v then VString "" else v).

(** The table body: the loading placeholder, the empty-state
    placeholder, or one [<tr>] per visible row. *)
Inductive Body :=
  | LoadingRow
  | EmptyRow
  | Rows (rows : list Row).

Definition body (p : Props) (st : State) : Body :=
  if loading p then LoadingRow
  else if Z.of_nat (length (view_paginated p st)) =? 0 then EmptyRow
  else Rows (view_paginated p st).

(** The two numbers of "Showing from-to of n". *)
Definition showingFrom (p : Props) (st : State) : Z :=
  (view_safeCurrentPage p st - 1) * pageSize p + 1.

Definition showingTo (p : Props) (st : State) : Z :=
  Z.min (view_safeCurrentPage p st * pageSize p)
        (Z.of_nat (length (view_sorted p st))).



(** *** Vocabulary of the properties *)

(** [q] occurs in [s] as a substring. *)
Definition occursIn (q s : string) : Prop :=
  ∃ pre post, s = pre +:+ q +:+ post.

(** Some column of [row] holds a value that is neither [null] nor
    [undefined] and whose lower-cased text contains [q]. *)
Definition matchesQuery (q : string) (columns : list Column) (row : Row)
    : Prop :=
  ∃ col, col ∈ columns
         ∧ isNullish (prop row (key col)) = false
         ∧ occursIn q (toLowerCase (String_ (prop row (key col)))).

(** [l] is [data] restricted, in order and with multiplicity, to the
    records satisfying [P]. *)
Definition exactlyThoseOf (P : Row → Prop) (data l : list Row) : Prop :=
  ∃ keep : Row → bool,
    (∀ row, keep row = true ↔ P row) ∧ l = List.filter keep data.

(** The filter stage as the specification words it: the query is the
    lower-cased trimmed search text. *)
Definition filters_by_trimmed_query (columns : list Column) (data : list Row)
    (search : string) : Prop :=
  trim search ≠ "" →
  exactlyThoseOf (matchesQuery (toLowerCase (trim search)) columns) data
                 (filtered columns data search).

(** The order the sort stage is to establish between a record [a] and
    a later record [b], on column [k]: a record without a value is
    followed only by records without a value, and two values are in
    the order of the direction under [localeCompare]. *)
Definition rowOrder (k : string) (dir : SortDirection) (a b : Row) : Prop :=
  (isNullish (prop a k) = true → isNullish (prop b k) = true)
  ∧ (isNullish (prop a k) = false → isNullish (prop b k) = false →
     match dir with
     | asc => localeCompare (String_ (prop a k)) (String_ (prop b k)) ≤ 0
     | desc => 0 ≤ localeCompare (String_ (prop a k)) (String_ (prop b k))
     end).

(** The identifiers of the rows on the visible page. *)
Definition visibleIds (p : Props) (st : State) : list value :=
  id_of <$> view_paginated p st.

Definition allVisibleSelected (p : Props) (st : State) : Prop :=
  ∀ id, id ∈ visibleIds p st → id ∈ selected st.

Definition noVisibleSelected (p : Props) (st : State) : Prop :=
  ∀ id, id ∈ visibleIds p st → id ∉ selected st.

(** Select-all twice as the specification words it: whatever the
    selection was, the visible identifiers are members afterwards
    exactly when they were members before. *)
Definition toggleAll_twice_restores_page (p : Props) (st : State) : Prop :=
  ∀ id, id ∈ visibleIds p st →
        (id ∈ selected (toggleAll p (toggleAll p st).1).1 ↔ id ∈ selected st).

(** One click on the header of [col]. *)
Definition activate (p : Props) (col : Column) (st : State) : State :=
  (step p st (EvHeader col)).1.

Definition sortState (st : State) : option string * option SortDirection :=
  (sortKey st, sortDir st).

(** The direction is none exactly when the active column is none. *)
Definition sortInvariant (st : State) : Prop :=
  sortDir st = None ↔ sortKey st = None.

(** What one comparison of the insertion step leaves between two
    neighbours [a], [b]: either [a] was put in front of [b], or [b] was
    not put in front of [a]. *)
Definition placedBefore {A} (comparefn : A → A → Z) (a b : A) : Prop :=
  comparefn a b < 0 ∨ 0 ≤ comparefn b a.

(** [localeCompare] is transitive. *)
Definition localeCompare_transitive : Prop :=
  ∀ x y z, localeCompare x y ≤ 0 → localeCompare y z ≤ 0 →
           localeCompare x z ≤ 0.

(** [localeCompare] changes sign with its arguments. *)
Definition localeCompare_antisymmetric : Prop :=
  ∀ x y, Z.sgn (localeCompare y x) = - Z.sgn (localeCompare x y).

(** The record has a value in column [k] and its text is [s]. *)
Definition showsText (k s : string) (r : Row) : bool :=
  negb (isNullish (prop r k)) && bool_decide (String_ (prop r k) = s).

(** *** The filter stage *)

Lemma startsWith_spec s q :
  startsWith s q = true ↔ ∃ post, s = q +:+ post.
Proof.
  revert s. induction q as [|c q IH]; intros s; simpl.
  - split; [intros _; by exists s | done].
  - destruct s as [|d s].
    + split; [done | by intros [post ?]].
    + case_decide as Hcd.
      * subst d. rewrite IH. split; intros [post Hp]; exists post.
        -- by rewrite Hp.
        -- by injection Hp.
      * split; [done | intros [post Hp]; injection Hp; congruence].
Qed.

Lemma includes_spec s q : includes s q = true ↔ occursIn q s.
Proof.
  unfold occursIn. induction s as [|c s IH].
  - cbn [includes]. destruct (startsWith "" q) eqn:Hs.
    + apply startsWith_spec in Hs as [post Hp]. split; [|done].
      intros _. by exists "", post.
    + split; [done|]. intros (pre & post & Hp).
      destruct pre; [|done]. simpl in Hp.
      assert (startsWith "" q = true) as Hs'
        by (apply startsWith_spec; by exists post).
      congruence.
  - cbn [includes]. destruct (startsWith (String c s) q) eqn:Hs.
    + apply startsWith_spec in Hs as [post Hp]. split; [|done].
      intros _. by exists "", post.
    + rewrite IH. split.
      * intros (pre & post & Hp). exists (String c pre), post.
        simpl. by rewrite Hp.
      * intros (pre & post & Hp). destruct pre as [|c' pre].
        -- simpl in Hp.
           assert (startsWith (String c s) q = true) as Hs'
             by (apply startsWith_spec; by exists post).
           congruence.
        -- simpl in Hp. injection Hp as _ Hp. by exists pre, post.
Qed.

Lemma cellMatches_spec q row col :
  cellMatches q row col = true
  ↔ isNullish (prop row (key col)) = false
    ∧ occursIn q (toLowerCase (String_ (prop row (key col)))).
Proof.
  unfold cellMatches. cbv zeta.
  rewrite andb_true_iff, negb_true_iff, includes_spec. done.
Qed.

Lemma rowMatches_spec q columns row :
  existsb (cellMatches q row) columns = true ↔ matchesQuery q columns row.
Proof.
  unfold matchesQuery. rewrite existsb_exists. split.
  - intros (col & Hin & Hm). exists col.
    apply list_elem_of_In in Hin. by apply cellMatches_spec in Hm.
  - intros (col & Hin & Hm). exists col.
    apply list_elem_of_In in Hin. by rewrite cellMatches_spec.
Qed.

Lemma elem_of_List_filter {A} (f : A → bool) (l : list A) x :
  x ∈ List.filter f l ↔ x ∈ l ∧ f x = true.
Proof. rewrite !list_elem_of_In. apply filter_In. Qed.

Lemma List_filter_sublist {A} (f : A → bool) (l : list A) :
  sublist (List.filter f l) l.
Proof.
  induction l as [|x l IH]; simpl; [constructor|].
  destruct (f x); by constructor.
Qed.

(** C1 (as the code has it): when the trimmed search text is not empty,
    the filter stage returns exactly the records of [data], in order,
    for which some column holds a non-null value whose lower-cased text
    contains the lower-cased search text as typed, surrounding
    whitespace included; every record of the result matches in some
    column and every record left out matches in none. *)
Theorem filtered_spec columns data search :
  trim search ≠ "" →
  exactlyThoseOf (matchesQuery (toLowerCase search) columns) data
                 (filtered columns data search)
  ∧ sublist (filtered columns data search) data
  ∧ (∀ row, row ∈ filtered columns data search →
            matchesQuery (toLowerCase search) columns row)
  ∧ (∀ row, row ∈ data → row ∉ filtered columns data search →
            ¬ matchesQuery (toLowerCase search) columns row).
Proof.
  intros Hne. unfold filtered. rewrite decide_False by done. cbv zeta.
  split; [|split; [|split]].
  - eexists. split; [|reflexivity]. intros row. apply rowMatches_spec.
  - apply List_filter_sublist.
  - intros row [_ Hm]%elem_of_List_filter. by apply rowMatches_spec.
  - intros row Hin Hout Hm. apply Hout, elem_of_List_filter.
    split; [done|]. by apply rowMatches_spec.
Qed.

(** An empty or whitespace-only search leaves the data as it is. *)
Lemma filtered_blank columns data search :
  trim search = "" → filtered columns data search = data.
Proof. intros H. unfold filtered. by rewrite decide_True. Qed.

(** *** The sort stage *)

Lemma insertSorted_perm {A} (c : A → A → Z) x l :
  insertSorted c x l ≡ₚ x :: l.
Proof.
  induction l as [|y l IH]; simpl; [done|].
  destruct (c x y <? 0); [done|].
  rewrite IH. apply Permutation_swap.
Qed.

Lemma fold_insertSorted_perm {A} (c : A → A → Z) l acc :
  fold_left (fun acc x => insertSorted c x acc) l acc ≡ₚ acc ++ l.
Proof.
  revert acc. induction l as [|x l IH]; intros acc; simpl.
  - by rewrite app_nil_r.
  - rewrite IH, insertSorted_perm. simpl. apply Permutation_middle.
Qed.

Lemma Array_sort_perm {A} (c : A → A → Z) l : Array_sort c l ≡ₚ l.
Proof. unfold Array_sort. by rewrite fold_insertSorted_perm. Qed.

Lemma insertSorted_HdRel {A} (c : A → A → Z) y x l :
  placedBefore c y x → HdRel (placedBefore c) y l →
  HdRel (placedBefore c) y (insertSorted c x l).
Proof.
  intros Hyx Hyl. destruct l as [|z l]; simpl; [by constructor|].
  destruct (c x z <? 0); constructor; [done|].
  by inversion Hyl.
Qed.

Lemma insertSorted_Sorted {A} (c : A → A → Z) x l :
  Sorted (placedBefore c) l → Sorted (placedBefore c) (insertSorted c x l).
Proof.
  induction 1 as [|y l Hl IH Hhd]; simpl.
  - repeat constructor.
  - destruct (c x y <? 0) eqn:Hc.
    + apply Z.ltb_lt in Hc. constructor; [by constructor|].
      constructor. by left.
    + apply Z.ltb_ge in Hc. constructor; [done|].
      apply insertSorted_HdRel; [by right | done].
Qed.

Lemma Array_sort_Sorted {A} (c : A → A → Z) l :
  Sorted (placedBefore c) (Array_sort c l).
Proof.
  unfold Array_sort.
  assert (Sorted (placedBefore c) []) as Hacc by constructor.
  revert Hacc. generalize (@nil A) as acc.
  induction l as [|x l IH]; intros acc Hacc; simpl; [done|].
  apply IH. by apply insertSorted_Sorted.
Qed.

Lemma Sorted_weaken {A} (R S : relation A) l :
  (∀ a b, R a b → S a b) → Sorted R l → Sorted S l.
Proof.
  intros HRS. induction 1 as [|x l Hl IH Hhd]; constructor; [done|].
  destruct Hhd; constructor; auto.
Qed.

Lemma Sorted_adjacent {A} (R : relation A) l i a b :
  Sorted R l → l !! i = Some a → l !! S i = Some b → R a b.
Proof.
  intros Hl. revert i. induction Hl as [|x l Hl IH Hhd]; intros i Ha Hb.
  - done.
  - destruct i as [|i]; simpl in *.
    + injection Ha as ->. destruct Hhd as [|y l' Hxy]; [done|].
      simpl in Hb. by injection Hb as ->.
    + by eapply IH.
Qed.

Lemma StronglySorted_lookup {A} (R : relation A) l i j a b :
  StronglySorted R l → (i < j)%nat →
  l !! i = Some a → l !! j = Some b → R a b.
Proof.
  intros Hl. revert i j.
  induction Hl as [|x l Hl IH Hall]; intros i j Hij Ha Hb; [done|].
  destruct j as [|j]; [lia|]. simpl in Hb.
  destruct i as [|i]; simpl in Ha.
  - injection Ha as ->. rewrite Forall_forall in Hall.
    apply Hall. by eapply list_elem_of_lookup_2.
  - eapply IH; [|done..]. lia.
Qed.

Lemma sgn_flip x y :
  Z.sgn y = - Z.sgn x → (x < 0 ↔ 0 < y) ∧ (x = 0 ↔ y = 0) ∧ (0 < x ↔ y < 0).
Proof. destruct x, y; simpl; intros H; try discriminate; lia. Qed.

(** The comparator of the sort stage orders neighbours as [rowOrder]
    asks, provided [localeCompare] changes sign with its arguments. *)
Lemma compareRows_rowOrder k dir a b :
  (∀ x y, Z.sgn (localeCompare y x) = - Z.sgn (localeCompare x y)) →
  placedBefore (compareRows k (Some dir)) a b → rowOrder k dir a b.
Proof.
  intros Hanti Hp. unfold placedBefore, compareRows in Hp. cbv zeta in Hp.
  pose proof (sgn_flip _ _ (Hanti (String_ (prop a k)) (String_ (prop b k))))
    as Hab.
  unfold rowOrder.
  destruct (isNullish (prop a k)), (isNullish (prop b k));
    split; try done; try lia.
  intros _ _. destruct dir; repeat case_decide; try done; lia.
Qed.

(** C3: with an active column [k] and a direction, the sort stage
    returns a rearrangement of its input in which any two neighbours
    that both have a value in column [k] are in order under
    [localeCompare] (at most 0 ascending, at least 0 descending), the
    comparator itself answers at most 0 on every neighbouring pair whose
    first record has a value, and a record without a value is followed
    only by records without a value, whatever the direction. *)
Theorem sorted_spec (rows : list Row) (k : string) (dir : SortDirection) :
  (∀ x y, Z.sgn (localeCompare y x) = - Z.sgn (localeCompare x y)) →
  k ≠ "" →
  sorted rows (Some k) (Some dir) ≡ₚ rows
  ∧ (∀ i a b,
       sorted rows (Some k) (Some dir) !! i = Some a →
       sorted rows (Some k) (Some dir) !! S i = Some b →
       isNullish (prop a k) = false → isNullish (prop b k) = false →
       match dir with
       | asc => localeCompare (String_ (prop a k)) (String_ (prop b k)) ≤ 0
       | desc => 0 ≤ localeCompare (String_ (prop a k)) (String_ (prop b k))
       end)
  ∧ (∀ i a b,
       sorted rows (Some k) (Some dir) !! i = Some a →
       sorted rows (Some k) (Some dir) !! S i = Some b →
       isNullish (prop a k) = false →
       compareRows k (Some dir) a b ≤ 0)
  ∧ (∀ i j a b, (i < j)%nat →
       sorted rows (Some k) (Some dir) !! i = Some a →
       sorted rows (Some k) (Some dir) !! j = Some b →
       isNullish (prop a k) = true → isNullish (prop b k) = true).
Proof.
  intros Hanti Hk. unfold sorted. rewrite decide_False by done.
  pose proof (Array_sort_Sorted (compareRows k (Some dir)) rows) as Hplaced.
  assert (Sorted (rowOrder k dir) (Array_sort (compareRows k (Some dir)) rows))
    as Hord.
  { eapply Sorted_weaken; [|exact Hplaced].
    intros a b. by apply compareRows_rowOrder. }
  split; [apply Array_sort_perm|]. split; [|split].
  - intros i a b Ha Hb Hna Hnb.
    destruct (Sorted_adjacent _ _ _ _ _ Hord Ha Hb) as [_ H]. by apply H.
  - intros i a b Ha Hb Hna.
    destruct (Sorted_adjacent _ _ _ _ _ Hord Ha Hb) as [_ H].
    unfold compareRows. cbv zeta. rewrite Hna.
    destruct (isNullish (prop b k)) eqn:Hnb; [lia|].
    specialize (H Hna eq_refl).
    destruct dir; case_decide; try done; lia.
  - intros i j a b Hij Ha Hb.
    set (N := fun a b : Row =>
                isNullish (prop a k) = true → isNullish (prop b k) = true).
    assert (Transitive N) as HN by (intros x y z Hxy Hyz Hx; auto).
    assert (StronglySorted N (Array_sort (compareRows k (Some dir)) rows))
      as Hstrong.
    { apply Sorted_StronglySorted; [done|].
      eapply Sorted_weaken; [|exact Hord]. by intros x y [H _]. }
    exact (StronglySorted_lookup _ _ _ _ _ _ Hstrong Hij Ha Hb).
Qed.

(** Without an active column, or without a direction, the sort stage
    hands its input on unchanged. *)
Lemma sorted_unsorted (rows : list Row) :
  sorted rows None None = rows.
Proof. done. Qed.

(** *** The pagination stage *)

Lemma ceil_div_spec n p :
  0 < p → p * (ceil_div n p - 1) < n ≤ p * ceil_div n p.
Proof.
  intros Hp. unfold ceil_div.
  pose proof (Z.div_mod (- n) p) as Hdm.
  pose proof (Z.mod_pos_bound (- n) p Hp) as Hmod.
  nia.
Qed.

Lemma ceil_div_unique n p c :
  0 < p → p * (c - 1) < n ≤ p * c → c = ceil_div n p.
Proof.
  intros Hp Hc. pose proof (ceil_div_spec n p Hp) as Hd. nia.
Qed.

Lemma totalPages_bounds (rows : list Row) p :
  1 ≤ p →
  1 ≤ totalPages rows p
  ∧ Z.of_nat (length rows) ≤ totalPages rows p * p
  ∧ (1 < totalPages rows p →
     (totalPages rows p - 1) * p < Z.of_nat (length rows)).
Proof.
  intros Hp. unfold totalPages.
  pose proof (ceil_div_spec (Z.of_nat (length rows)) p ltac:(lia)) as Hd.
  split; [lia|]. split; [nia|]. intros H1.
  rewrite Z.max_r by lia. rewrite Z.max_r in H1 by lia. nia.
Qed.

(** A slice that starts at a non-negative index: no index is counted
    from the end, and running past the end shortens the window. *)
Lemma Array_slice_window {A} (l : list A) start size :
  0 ≤ start → 0 ≤ size →
  Array_slice l start (start + size)
  = take (Z.to_nat size) (drop (Z.to_nat start) l).
Proof.
  intros Hs Hp. unfold Array_slice, relativeIndex. cbv zeta.
  rewrite (proj2 (Z.ltb_ge start 0)), (proj2 (Z.ltb_ge (start + size) 0))
    by lia.
  destruct (decide (Z.of_nat (length l) ≤ start)) as [Hge|Hlt].
  - rewrite !drop_ge by lia. by rewrite !take_nil.
  - rewrite (Z.min_l start) by lia.
    destruct (decide (start + size ≤ Z.of_nat (length l))) as [Hin|Hout].
    + rewrite Z.min_l by lia. f_equal. lia.
    + rewrite Z.min_r by lia.
      rewrite !take_ge; [done | |]; rewrite length_drop; lia.
Qed.

Lemma paginated_window (rows : list Row) page p :
  1 ≤ p → 1 ≤ page →
  paginated rows page p
  = take (Z.to_nat p) (drop (Z.to_nat ((page - 1) * p)) rows).
Proof.
  intros Hp Hpage. unfold paginated. cbv zeta.
  apply Array_slice_window; nia.
Qed.

Lemma concat_windows {A} (l : list A) (size t : nat) :
  concat ((fun i : nat => take size (drop (i * size) l)) <$> seq 0 t)
  = take (t * size) l.
Proof.
  induction t as [|t IH]; [done|].
  rewrite seq_S, fmap_app, concat_app, IH. simpl.
  rewrite app_nil_r, take_take_drop. f_equal. lia.
Qed.

(** C4: for a page size of at least 1, the number of pages is the
    larger of 1 and the ceiling of length / page size; with a requested
    page of at least 1 the page used for slicing is that page clamped
    into [1, total pages]; the visible slice is the window of page-size
    records, cut short by the end of the sequence, that starts at
    (page - 1) * page size; and the slices of pages 1 to total pages,
    one after the other, are the sorted sequence. *)
Theorem pagination_spec (rows : list Row) (p cur : Z) :
  1 ≤ p → 1 ≤ cur →
  (∃ c, p * (c - 1) < Z.of_nat (length rows) ≤ p * c
        ∧ totalPages rows p = Z.max 1 c)
  ∧ 1 ≤ safeCurrentPage cur (totalPages rows p) ≤ totalPages rows p
  ∧ safeCurrentPage cur (totalPages rows p)
    = Z.max 1 (Z.min cur (totalPages rows p))
  ∧ paginated rows (safeCurrentPage cur (totalPages rows p)) p
    = take (Z.to_nat p)
        (drop (Z.to_nat ((safeCurrentPage cur (totalPages rows p) - 1) * p))
              rows)
  ∧ 0 ≤ (safeCurrentPage cur (totalPages rows p) - 1) * p
      ≤ Z.of_nat (length rows)
  ∧ concat ((fun k => paginated rows (safeCurrentPage k (totalPages rows p)) p)
            <$> seqZ 1 (totalPages rows p))
    = rows.
Proof.
  intros Hp Hcur.
  destruct (totalPages_bounds rows p Hp) as (Ht1 & Htn & Htlast).
  assert (1 ≤ safeCurrentPage cur (totalPages rows p) ≤ totalPages rows p)
    as Hsafe by (unfold safeCurrentPage; lia).
  split; [|split; [done|split; [|split; [|split]]]].
  - exists (ceil_div (Z.of_nat (length rows)) p).
    split; [apply ceil_div_spec; lia | done].
  - unfold safeCurrentPage. lia.
  - apply paginated_window; lia.
  - destruct (decide (1 < totalPages rows p)) as [Hmany|Hone]; [|nia].
    specialize (Htlast Hmany). nia.
  - unfold seqZ. rewrite <- list_fmap_compose.
    erewrite list_fmap_ext.
    + rewrite (concat_windows rows (Z.to_nat p) (Z.to_nat (totalPages rows p))).
      apply take_ge. nia.
    + intros i x [-> Hi]%lookup_seq. simpl.
      unfold safeCurrentPage. rewrite Z.min_l by lia.
      rewrite paginated_window by lia. do 2 f_equal. nia.
Qed.

(** C8: for a current page between 1 and the number of pages, the
    numbered buttons are consecutive page numbers, at most 5 of them,
    all between 1 and the number of pages, the current page among them;
    the window is centred on the current page whenever two pages exist
    on either side of it. *)
Theorem pageButtons_spec (cur total : Z) :
  1 ≤ cur ≤ total →
  ∃ first count,
    pageButtons cur total = Some <$> seqZ first count
    ∧ 0 ≤ count ≤ 5
    ∧ 1 ≤ first ∧ first + count - 1 ≤ total
    ∧ first ≤ cur < first + count
    ∧ (3 ≤ cur ≤ total - 2 → first = cur - 2 ∧ count = 5).
Proof.
  intros Hcur.
  exists (Z.max 1 (Z.min (cur - 2) (total - 4))), (Z.min 5 total).
  split; [|lia].
  unfold pageButtons.
  replace (seqZ (Z.max 1 (Z.min (cur - 2) (total - 4))) (Z.min 5 total))
    with (Z.add (Z.max 1 (Z.min (cur - 2) (total - 4)))
            <$> seqZ 0 (Z.min 5 total))
    by (rewrite fmap_add_seqZ; f_equal; lia).
  rewrite <- list_fmap_compose.
  apply list_fmap_ext. intros i x Hx. simpl.
  apply list_elem_of_lookup_2, elem_of_seqZ in Hx.
  rewrite (proj2 (Z.ltb_ge _ _)); [done | lia].
Qed.

(** *** Sort activation *)

Lemma handleSort_other p st k :
  sortKey st ≠ Some k →
  sortKey (handleSort p st k).1 = Some k
  ∧ sortDir (handleSort p st k).1 = Some asc.
Proof. intros H. unfold handleSort. by rewrite decide_False. Qed.

Lemma handleSort_same p st k :
  sortKey st = Some k →
  sortKey (handleSort p st k).1
  = match sortDir st with Some desc => None | _ => Some k end
  ∧ sortDir (handleSort p st k).1
    = match sortDir st with
      | Some asc => Some desc
      | Some desc => None
      | None => Some asc
      end.
Proof.
  intros H. unfold handleSort. rewrite decide_True by done.
  by destruct (sortDir st) as [[]|].
Qed.

Lemma handleSort_keeps p st k :
  search (handleSort p st k).1 = search st
  ∧ currentPage (handleSort p st k).1 = currentPage st
  ∧ selected (handleSort p st k).1 = selected st.
Proof. done. Qed.

(** C5: clicking the header of a sortable column that is not the active
    one (in particular from the unsorted state) sets that column
    ascending; a second click on it sets descending; a third returns to
    the unsorted state, in which the sort stage hands on the filtered
    sequence as it is; a fourth gives the state of the first. *)
Theorem handleSort_cycle p col st :
  sortable col = true → sortKey st ≠ Some (key col) →
  sortState (activate p col st) = (Some (key col), Some asc)
  ∧ sortState (activate p col (activate p col st))
    = (Some (key col), Some desc)
  ∧ sortState (activate p col (activate p col (activate p col st)))
    = (None, None)
  ∧ view_sorted p (activate p col (activate p col (activate p col st)))
    = view_filtered p st
  ∧ sortState
      (activate p col (activate p col (activate p col (activate p col st))))
    = sortState (activate p col st).
Proof.
  intros Hsortable Hother. unfold activate, step. rewrite Hsortable.
  destruct (handleSort_other p st (key col) Hother) as [Hk1 Hd1].
  destruct (handleSort_same p _ (key col) Hk1) as [Hk2 Hd2].
  rewrite Hd1 in Hk2, Hd2.
  destruct (handleSort_same p _ (key col) Hk2) as [Hk3 Hd3].
  rewrite Hd2 in Hk3, Hd3.
  assert (sortKey (handleSort p (handleSort p (handleSort p st (key col)).1
            (key col)).1 (key col)).1 ≠ Some (key col)) as Hother3
    by (rewrite Hk3; done).
  destruct (handleSort_other p _ (key col) Hother3) as [Hk4 Hd4].
  unfold sortState. rewrite Hk1, Hd1, Hk2, Hd2, Hk3, Hd3, Hk4, Hd4.
  repeat split.
  unfold view_sorted. by rewrite Hk3.
Qed.

(** C9: the direction is none exactly when the active column is none, in
    the initial state, after any call of the sort handler from any
    state, after any sequence of such calls, and in every state the
    component can reach. *)
Theorem sortInvariant_preserved :
  sortInvariant initial
  ∧ (∀ p st k, sortInvariant (handleSort p st k).1)
  ∧ (∀ p ks,
       sortInvariant (fold_left (fun st k => (handleSort p st k).1) ks initial))
  ∧ (∀ st, reachable st → sortInvariant st).
Proof.
  assert (∀ p st k, sortInvariant (handleSort p st k).1) as Hstep.
  { intros p st k. unfold sortInvariant, handleSort.
    case_decide; [destruct (sortDir st) as [[]|]|]; simpl; split; done. }
  assert (sortInvariant initial) as Hinit by done.
  split; [done|]. split; [done|]. split.
  - intros p ks. revert Hinit. generalize initial.
    induction ks as [|k ks IH]; intros st Hst; simpl; [done|].
    apply IH. apply (Hstep p st k).
  - induction 1 as [|p st ev Hr IH Hen]; [done|].
    destruct ev; simpl; try done.
    destruct (sortable col); [apply Hstep | done].
Qed.

(** *** Page number *)

Lemma pageButtons_range cur total page :
  Some page ∈ pageButtons cur total → 1 ≤ page ≤ total.
Proof.
  unfold pageButtons. intros (i & Hi & Hin%elem_of_seqZ)%list_elem_of_fmap.
  destruct (total <? _) eqn:Hlt; [done|].
  apply Z.ltb_ge in Hlt. injection Hi as ->. lia.
Qed.

Lemma totalPages_pos (rows : list Row) p : 1 ≤ totalPages rows p.
Proof. unfold totalPages. lia. Qed.

(** The page number held in the state never goes below 1. *)
Lemma reachable_currentPage st : reachable st → 1 ≤ currentPage st.
Proof.
  induction 1 as [|p st ev Hr IH Hen]; [done|].
  destruct ev; simpl; try done.
  - by destruct (sortable col).
  - lia.
  - pose proof (totalPages_pos (view_sorted p st) (pageSize p)).
    unfold view_totalPages. lia.
  - destruct Hen as [_ Hen]. apply pageButtons_range in Hen. lia.
Qed.

(** So the page used for slicing is, in every reachable state, the page
    of the state clamped into [1, total pages]. *)
Lemma reachable_safeCurrentPage p st :
  reachable st →
  1 ≤ view_safeCurrentPage p st ≤ view_totalPages p st
  ∧ view_safeCurrentPage p st
    = Z.max 1 (Z.min (currentPage st) (view_totalPages p st)).
Proof.
  intros Hr%reachable_currentPage.
  pose proof (totalPages_pos (view_sorted p st) (pageSize p)).
  unfold view_safeCurrentPage, safeCurrentPage, view_totalPages. lia.
Qed.

(** C10: every edit of the search text stores the new text and sets the
    page number to 1, whatever the page was and whatever the text is;
    the page used for slicing is then 1; sort state and selection are
    untouched. *)
Theorem search_resets_page p st v :
  (step p st (EvSearch v)).1 = onSearchChange st v
  ∧ search (onSearchChange st v) = v
  ∧ currentPage (onSearchChange st v) = 1
  ∧ view_safeCurrentPage p (onSearchChange st v) = 1
  ∧ sortState (onSearchChange st v) = sortState st
  ∧ selected (onSearchChange st v) = selected st.
Proof.
  repeat split.
  pose proof (totalPages_pos (view_sorted p (onSearchChange st v)) (pageSize p)).
  unfold view_safeCurrentPage, safeCurrentPage, view_totalPages. simpl. lia.
Qed.

(** *** Selection *)

Lemma fold_delete (ids : list value) (prev : gset value) :
  fold_left (fun s id => s ∖ {[id]}) ids prev = prev ∖ list_to_set ids.
Proof.
  revert prev. induction ids as [|id ids IH]; intros prev; simpl.
  - apply set_eq. intros x.
    rewrite elem_of_difference, elem_of_empty. tauto.
  - rewrite IH. apply set_eq. intros x.
    rewrite !elem_of_difference, elem_of_union, elem_of_singleton. tauto.
Qed.

Lemma fold_add (ids : list value) (prev : gset value) :
  fold_left (fun s id => {[id]} ∪ s) ids prev = list_to_set ids ∪ prev.
Proof.
  revert prev. induction ids as [|id ids IH]; intros prev; simpl.
  - apply set_eq. intros x. rewrite elem_of_union, elem_of_empty. tauto.
  - rewrite IH. apply set_eq. intros x.
    rewrite !elem_of_union, elem_of_singleton. tauto.
Qed.

Lemma every_has (ids : list value) (prev : gset value) :
  forallb (fun id => bool_decide (id ∈ prev)) ids = true
  ↔ ∀ id, id ∈ ids → id ∈ prev.
Proof.
  rewrite forallb_forall. split; intros H id Hin.
  - apply list_elem_of_In in Hin. specialize (H id Hin).
    by apply bool_decide_eq_true_1 in H.
  - apply list_elem_of_In in Hin. apply bool_decide_eq_true_2. by apply H.
Qed.

Lemma every_has_2 (ids : list value) (prev : gset value) :
  (∀ id, id ∈ ids → id ∈ prev) →
  forallb (fun id => bool_decide (id ∈ prev)) ids = true.
Proof. apply every_has. Qed.

(** The set select-all leaves, in closed form. *)
Lemma toggleAll_selected_all p st :
  allVisibleSelected p st →
  selected (toggleAll p st).1
  = selected st ∖ list_to_set (visibleIds p st).
Proof.
  intros Hall%every_has_2. unfold toggleAll, visibleIds in *. cbv zeta.
  simpl. rewrite Hall. apply fold_delete.
Qed.

Lemma toggleAll_selected_some p st :
  ¬ allVisibleSelected p st →
  selected (toggleAll p st).1
  = list_to_set (visibleIds p st) ∪ selected st.
Proof.
  intros Hnot. unfold toggleAll. cbv zeta. simpl.
  destruct (forallb _ _) eqn:Hall; [|apply fold_add].
  rewrite every_has in Hall. done.
Qed.

Lemma allVisibleSelected_dec p st :
  allVisibleSelected p st ∨ ¬ allVisibleSelected p st.
Proof.
  destruct (forallb (fun id => bool_decide (id ∈ selected st))
              (visibleIds p st)) eqn:Hall.
  - left. by rewrite every_has in Hall.
  - right. intros H%every_has_2. congruence.
Qed.

Lemma toggleAll_keeps p st :
  search (toggleAll p st).1 = search st
  ∧ sortState (toggleAll p st).1 = sortState st
  ∧ currentPage (toggleAll p st).1 = currentPage st
  ∧ visibleIds p (toggleAll p st).1 = visibleIds p st.
Proof. done. Qed.

(** C6: select-all acts on the identifiers of the visible page only.
    If all of them are in the selection set, the new set is the old one
    without them; otherwise it is the old one with all of them added;
    in both cases an identifier that is not on the visible page is a
    member afterwards exactly when it was before, and search text, sort
    state and page number stay as they are. *)
Theorem toggleAll_spec p st :
  (allVisibleSelected p st →
   ∀ id, id ∈ selected (toggleAll p st).1
         ↔ id ∈ selected st ∧ id ∉ visibleIds p st)
  ∧ (¬ allVisibleSelected p st →
     ∀ id, id ∈ selected (toggleAll p st).1
           ↔ id ∈ selected st ∨ id ∈ visibleIds p st)
  ∧ (∀ id, id ∉ visibleIds p st →
           (id ∈ selected (toggleAll p st).1 ↔ id ∈ selected st))
  ∧ search (toggleAll p st).1 = search st
  ∧ sortState (toggleAll p st).1 = sortState st
  ∧ currentPage (toggleAll p st).1 = currentPage st.
Proof.
  split; [|split; [|split; [|done]]].
  - intros Hall id. rewrite toggleAll_selected_all by done.
    rewrite elem_of_difference, elem_of_list_to_set. done.
  - intros Hnot id. rewrite toggleAll_selected_some by done.
    rewrite elem_of_union, elem_of_list_to_set. tauto.
  - intros id Hid. destruct (allVisibleSelected_dec p st) as [Hall|Hnot].
    + rewrite toggleAll_selected_all by done.
      rewrite elem_of_difference, elem_of_list_to_set. tauto.
    + rewrite toggleAll_selected_some by done.
      rewrite elem_of_union, elem_of_list_to_set. tauto.
Qed.

(** After select-all on a page where not every row was selected, every
    row of the page is selected. *)
Lemma toggleAll_some_then_all p st :
  ¬ allVisibleSelected p st → allVisibleSelected p (toggleAll p st).1.
Proof.
  intros Hnot id Hid. rewrite toggleAll_selected_some by done.
  rewrite elem_of_union, elem_of_list_to_set. by left.
Qed.

Lemma toggleAll_twice_selected p st :
  allVisibleSelected p st ∨ noVisibleSelected p st →
  selected (toggleAll p (toggleAll p st).1).1 = selected st.
Proof.
  intros Hcase. apply set_eq. intros x.
  destruct (allVisibleSelected_dec p st) as [Hall|Hnot].
  - destruct (allVisibleSelected_dec p (toggleAll p st).1) as [Hall2|Hnot2].
    + (* the page is empty *)
      rewrite toggleAll_selected_all by done.
      rewrite toggleAll_selected_all by done.
      rewrite !elem_of_difference, !elem_of_list_to_set.
      split; [tauto|]. intros Hx. repeat split; try done.
      all: intros Hvis; specialize (Hall2 x Hvis);
        rewrite toggleAll_selected_all in Hall2 by done;
        rewrite elem_of_difference, elem_of_list_to_set in Hall2; tauto.
    + rewrite toggleAll_selected_some by done.
      rewrite elem_of_union, !elem_of_list_to_set.
      rewrite toggleAll_selected_all by done.
      rewrite elem_of_difference, elem_of_list_to_set.
      destruct (decide (x ∈ visibleIds p st)) as [Hvis|Hvis];
        [|tauto].
      split; [intros _; by apply Hall | by left].
  - destruct Hcase as [Hall|Hnone]; [done|].
    pose proof (toggleAll_some_then_all p st Hnot) as Hall2.
    rewrite toggleAll_selected_all by done.
    rewrite elem_of_difference, elem_of_list_to_set.
    rewrite toggleAll_selected_some by done.
    rewrite elem_of_union, elem_of_list_to_set.
    specialize (Hnone x). tauto.
Qed.

(** C2 (as the code has it): when the identifiers of the visible page
    are all in the selection set, or none of them is, select-all twice
    in a row gives back the state it started from, selection set
    included. *)
Theorem select_all_twice_identity p st :
  allVisibleSelected p st ∨ noVisibleSelected p st →
  (toggleAll p (toggleAll p st).1).1 = st.
Proof.
  intros Hsel%toggleAll_twice_selected.
  destruct st as [s k d c sel]. simpl in Hsel.
  unfold toggleAll at 1. cbv zeta. unfold setSelected. simpl.
  f_equal. exact Hsel.
Qed.

(** When only some of the visible rows are selected, select-all twice
    leaves none of them selected. *)
Lemma toggleAll_twice_partial p st :
  ¬ allVisibleSelected p st →
  ∀ id, id ∈ visibleIds p st →
        id ∉ selected (toggleAll p (toggleAll p st).1).1.
Proof.
  intros Hnot id Hid.
  pose proof (toggleAll_some_then_all p st Hnot) as Hall2.
  rewrite toggleAll_selected_all by done.
  rewrite elem_of_difference, elem_of_list_to_set. tauto.
Qed.

(** A single-row toggle flips the membership of its identifier and of
    no other. *)
Lemma toggleRow_selected p st id :
  ∀ x, x ∈ selected (toggleRow p st id).1
       ↔ (if decide (x = id) then x ∉ selected st else x ∈ selected st).
Proof.
  intros x. unfold toggleRow. cbv zeta. simpl.
  destruct (decide (id ∈ selected st)); case_decide; subst;
    rewrite ?elem_of_difference, ?elem_of_union, ?elem_of_singleton; tauto.
Qed.

Lemma selectedRows_spec (rows : list Row) (next : gset value) :
  exactlyThoseOf (fun r => id_of r ∈ next) rows (selectedRows rows next)
  ∧ sublist (selectedRows rows next) rows
  ∧ (∀ r, r ∈ selectedRows rows next ↔ r ∈ rows ∧ id_of r ∈ next).
Proof.
  unfold selectedRows. split; [|split].
  - eexists. split; [|reflexivity]. intros r. apply bool_decide_eq_true.
  - apply List_filter_sublist.
  - intros r. rewrite elem_of_List_filter, bool_decide_eq_true. done.
Qed.

(** C7: a single-row toggle and a select-all toggle each invoke the
    selection callback, when the caller supplied one, once, with
    exactly the records of the whole [data] array whose identifier is
    in the updated selection set, in the order of [data]; the visible
    page plays no part in that list. *)
Theorem selection_callback_spec p st id :
  (toggleRow p st id).2
  = (if onSelectionChange p
     then [SelectionChange
             (selectedRows (data p) (selected (toggleRow p st id).1))]
     else [])
  ∧ (toggleAll p st).2
    = (if onSelectionChange p
       then [SelectionChange
               (selectedRows (data p) (selected (toggleAll p st).1))]
       else [])
  ∧ (∀ next,
       exactlyThoseOf (fun r => id_of r ∈ next) (data p)
                      (selectedRows (data p) next)
       ∧ sublist (selectedRows (data p) next) (data p)
       ∧ (∀ r, r ∈ selectedRows (data p) next
               ↔ r ∈ data p ∧ id_of r ∈ next)).
Proof.
  split; [done|]. split; [done|].
  intros next. apply selectedRows_spec.
Qed.

(** *** Further properties of the filter stage *)

Lemma List_filter_idem {A} (f : A → bool) (l : list A) :
  List.filter f (List.filter f l) = List.filter f l.
Proof.
  induction l as [|x l IH]; simpl; [done|].
  destruct (f x) eqn:Hx; simpl; [rewrite Hx; by f_equal | done].
Qed.

Lemma occursIn_empty q : occursIn q "" → q = "".
Proof. intros (pre & post & H). destruct pre; [by destruct q | done]. Qed.

(** X1: whatever the search text, the filter stage returns a
    subsequence of [data]: it never invents, duplicates or reorders a
    record; for a blank search text it returns [data] itself. *)
Theorem filtered_sublist columns data search :
  sublist (filtered columns data search) data
  ∧ (trim search = "" → filtered columns data search = data).
Proof.
  unfold filtered. case_decide; [done|].
  split; [apply List_filter_sublist | done].
Qed.

(** X2: filtering a filtered sequence again with the same search text
    changes nothing. *)
Theorem filtered_idempotent columns data search :
  filtered columns (filtered columns data search) search
  = filtered columns data search.
Proof.
  unfold filtered. case_decide; [done|]. apply List_filter_idem.
Qed.

(** X3: records are judged one by one: filtering a concatenation is
    concatenating the filtered parts. *)
Theorem filtered_app columns data1 data2 search :
  filtered columns (data1 ++ data2)%list search
  = (filtered columns data1 search ++ filtered columns data2 search)%list.
Proof.
  unfold filtered. case_decide; [done|]. apply List.filter_app.
Qed.

(** X4: with a non-blank search text, a record whose value is [null] or
    [undefined] in every column is filtered out, whatever the text is:
    the words "null" and "undefined" find no such record.  In
    particular nothing passes when there is no column. *)
Theorem filtered_excludes_nullish columns data search row :
  trim search ≠ "" →
  (∀ col, col ∈ columns → isNullish (prop row (key col)) = true) →
  row ∉ filtered columns data search.
Proof.
  intros Hne Hnull. unfold filtered. rewrite decide_False by done.
  cbv zeta. intros [_ Hm]%elem_of_List_filter.
  apply rowMatches_spec in Hm as (col & Hin & Hval & _).
  rewrite (Hnull col Hin) in Hval. done.
Qed.

(** X5: the filter agrees with what the default renderer shows: with a
    non-blank search text whose lower-casing is not empty, a record of
    [data] passes exactly when the lower-cased text of one of its cells
    contains the lower-cased search text. *)
Theorem filtered_iff_cellText columns data search row :
  trim search ≠ "" → toLowerCase "" = "" → toLowerCase search ≠ "" →
  row ∈ data →
  (row ∈ filtered columns data search
   ↔ ∃ col, col ∈ columns
            ∧ occursIn (toLowerCase search) (toLowerCase (cellText row col))).
Proof.
  intros Hne Hlow Hq Hin. unfold filtered. rewrite decide_False by done.
  cbv zeta. rewrite elem_of_List_filter, rowMatches_spec.
  unfold matchesQuery, cellText. cbv zeta. split.
  - intros (_ & col & Hcol & Hval & Hocc). exists col.
    rewrite Hval. done.
  - intros (col & Hcol & Hocc). split; [done|]. exists col.
    destruct (isNullish (prop row (key col))) eqn:Hval.
    + simpl in Hocc. rewrite Hlow in Hocc.
      by apply occursIn_empty in Hocc.
    + done.
Qed.

(** *** Further properties of the sort stage *)

(** X6: whatever the sort state, the sort stage returns a rearrangement
    of its input, so the number of pages is the same with and without
    sorting. *)
Theorem sorted_rearranges (rows : list Row) k dir (size : Z) :
  sorted rows k dir ≡ₚ rows
  ∧ length (sorted rows k dir) = length rows
  ∧ totalPages (sorted rows k dir) size = totalPages rows size.
Proof.
  assert (sorted rows k dir ≡ₚ rows) as Hperm.
  { unfold sorted. destruct k as [k|], dir as [d|]; try done.
    case_decide; [done | apply Array_sort_perm]. }
  split; [done|].
  assert (length (sorted rows k dir) = length rows) as Hlen
    by (by rewrite Hperm).
  split; [done|]. unfold totalPages. by rewrite Hlen.
Qed.

Lemma sgn_self x : Z.sgn x = - Z.sgn x → x = 0.
Proof. destruct x; simpl; intros H; try discriminate; done. Qed.

Lemma rowOrder_trans k dir :
  localeCompare_antisymmetric → localeCompare_transitive →
  Transitive (rowOrder k dir).
Proof.
  intros Hanti Htrans a b c [Hab1 Hab2] [Hbc1 Hbc2]. split; [auto|].
  intros Ha Hc.
  destruct (isNullish (prop b k)) eqn:Hb.
  { specialize (Hbc1 eq_refl). congruence. }
  specialize (Hab2 Ha eq_refl). specialize (Hbc2 eq_refl Hc).
  destruct dir.
  - eapply Htrans; eauto.
  - pose proof (sgn_flip _ _ (Hanti (String_ (prop a k)) (String_ (prop b k)))).
    pose proof (sgn_flip _ _ (Hanti (String_ (prop b k)) (String_ (prop c k)))).
    pose proof (sgn_flip _ _ (Hanti (String_ (prop a k)) (String_ (prop c k)))).
    assert (localeCompare (String_ (prop c k)) (String_ (prop a k)) ≤ 0)
      by (eapply (Htrans _ (String_ (prop b k))); lia).
    lia.
Qed.

Lemma Array_sort_rowOrder (rows : list Row) k dir :
  localeCompare_antisymmetric → localeCompare_transitive →
  StronglySorted (rowOrder k dir) (Array_sort (compareRows k (Some dir)) rows).
Proof.
  intros Hanti Htrans.
  apply Sorted_StronglySorted; [by apply rowOrder_trans|].
  eapply Sorted_weaken; [|apply Array_sort_Sorted].
  intros a b. by apply compareRows_rowOrder.
Qed.

(** X7: when [localeCompare] is also transitive, the order holds
    between any two records of the output that have a value, not only
    between neighbours. *)
Theorem sorted_all_pairs (rows : list Row) (k : string) (dir : SortDirection) :
  localeCompare_antisymmetric → localeCompare_transitive → k ≠ "" →
  ∀ i j a b, (i < j)%nat →
    sorted rows (Some k) (Some dir) !! i = Some a →
    sorted rows (Some k) (Some dir) !! j = Some b →
    isNullish (prop a k) = false → isNullish (prop b k) = false →
    match dir with
    | asc => localeCompare (String_ (prop a k)) (String_ (prop b k)) ≤ 0
    | desc => 0 ≤ localeCompare (String_ (prop a k)) (String_ (prop b k))
    end.
Proof.
  intros Hanti Htrans Hk i j a b Hij Ha Hb Hna Hnb.
  unfold sorted in Ha, Hb. rewrite decide_False in Ha, Hb by done.
  pose proof (Array_sort_rowOrder rows k dir Hanti Htrans) as Hs.
  destruct (StronglySorted_lookup _ _ _ _ _ _ Hs Hij Ha Hb) as [_ H].
  by apply H.
Qed.

Lemma List_filter_none {A} (f : A → bool) (l : list A) :
  Forall (fun y => f y = false) l → List.filter f l = [].
Proof.
  induction 1 as [|y l Hy _ IH]; simpl; [done|]. by rewrite Hy.
Qed.

Lemma StronglySorted_weaken {A} (R S : relation A) l :
  (∀ a b, R a b → S a b) → StronglySorted R l → StronglySorted S l.
Proof.
  intros HRS. induction 1 as [|x l Hl IH Hall]; constructor; [done|].
  eapply Forall_impl; [exact Hall | auto].
Qed.

Lemma insertSorted_filter_other {A} (c : A → A → Z) (f : A → bool) x l :
  f x = false → List.filter f (insertSorted c x l) = List.filter f l.
Proof.
  intros Hx. induction l as [|y l IH]; simpl; [by rewrite Hx|].
  destruct (c x y <? 0); simpl; [by rewrite Hx|].
  rewrite IH. done.
Qed.

(** A pivot kept by [f] lands behind every kept element when none of
    them is placed after it and nothing kept follows an element the
    pivot is placed before. *)
Lemma insertSorted_filter_tie {A} (c : A → A → Z) (f : A → bool) x l :
  f x = true →
  Forall (fun y => f y = true → 0 ≤ c x y) l →
  StronglySorted (fun z y => c x z < 0 → f y = false) l →
  List.filter f (insertSorted c x l) = (List.filter f l ++ [x])%list.
Proof.
  intros Hx Hties Hs. induction Hs as [|y l Hl IH Hall]; simpl.
  - by rewrite Hx.
  - apply Forall_cons in Hties as [Hy Hties].
    destruct (c x y <? 0) eqn:Hc.
    + apply Z.ltb_lt in Hc. simpl. rewrite Hx.
      destruct (f y) eqn:Hfy; [specialize (Hy eq_refl); lia|].
      rewrite List_filter_none; [done|].
      eapply Forall_impl; [exact Hall | auto].
    + simpl. rewrite IH by done. by destruct (f y).
Qed.

Lemma fold_insertSorted_stable (rows acc : list Row) k dir s :
  localeCompare_antisymmetric → localeCompare_transitive →
  Sorted (placedBefore (compareRows k (Some dir))) acc →
  List.filter (showsText k s)
    (fold_left (fun acc x => insertSorted (compareRows k (Some dir)) x acc)
               rows acc)
  = (List.filter (showsText k s) acc ++ List.filter (showsText k s) rows)%list.
Proof.
  intros Hanti Htrans. revert acc.
  induction rows as [|x rows IH]; intros acc Hacc; simpl.
  - by rewrite app_nil_r.
  - rewrite IH by (by apply insertSorted_Sorted).
    destruct (showsText k s x) eqn:Hx.
    + rewrite insertSorted_filter_tie; [by rewrite <- app_assoc | done | |].
      * apply Forall_forall. intros y _ Hy.
        unfold showsText in Hx, Hy.
        apply andb_true_iff in Hx as [Hxn Hxs], Hy as [Hyn Hys].
        apply negb_true_iff in Hxn, Hyn.
        apply bool_decide_eq_true_1 in Hxs, Hys.
        unfold compareRows. cbv zeta. rewrite Hxn, Hyn, Hxs, Hys.
        pose proof (sgn_self _ (Hanti s s)). case_decide; lia.
      * assert (StronglySorted (rowOrder k dir) acc) as Hstrong.
        { apply Sorted_StronglySorted; [by apply rowOrder_trans|].
          eapply Sorted_weaken; [|exact Hacc].
          intros a b. by apply compareRows_rowOrder. }
        eapply StronglySorted_weaken; [|exact Hstrong].
        intros z y [Hzy1 Hzy2] Hxz.
        destruct (showsText k s y) eqn:Hy; [exfalso | done].
        unfold showsText in Hx, Hy.
        apply andb_true_iff in Hx as [Hxn Hxs], Hy as [Hyn Hys].
        apply negb_true_iff in Hxn, Hyn.
        apply bool_decide_eq_true_1 in Hxs, Hys.
        unfold compareRows in Hxz. cbv zeta in Hxz. rewrite Hxn in Hxz.
        destruct (isNullish (prop z k)) eqn:Hzn.
        { specialize (Hzy1 eq_refl). congruence. }
        specialize (Hzy2 eq_refl Hyn). rewrite Hxs in Hxz. rewrite Hys in Hzy2.
        pose proof (sgn_flip _ _ (Hanti s (String_ (prop z k)))).
        destruct dir; case_decide; try done; lia.
    + by rewrite insertSorted_filter_other.
Qed.

(** X8: the sort is stable: records that have a value in the sort
    column and show the same text there keep, in the output, the order
    they had in the input. *)
Theorem sorted_stable (rows : list Row) (k s : string) (dir : SortDirection) :
  localeCompare_antisymmetric → localeCompare_transitive → k ≠ "" →
  List.filter (showsText k s) (sorted rows (Some k) (Some dir))
  = List.filter (showsText k s) rows.
Proof.
  intros Hanti Htrans Hk. unfold sorted. rewrite decide_False by done.
  unfold Array_sort. rewrite (fold_insertSorted_stable rows [] k dir s);
    [done | done | done | constructor].
Qed.

(** *** Further properties of the pagination stage *)


Lemma sorted_perm_any (rows : list Row) k dir : sorted rows k dir ≡ₚ rows.
Proof.
  unfold sorted. destruct k as [k|], dir as [d|]; try done.
  case_decide; [done | apply Array_sort_perm].
Qed.



Lemma view_paginated_length p st :
  1 ≤ pageSize p → 1 ≤ currentPage st →
  Z.of_nat (length (view_paginated p st))
  = Z.min (pageSize p)
          (Z.of_nat (length (view_sorted p st))
           - (view_safeCurrentPage p st - 1) * pageSize p)
  ∧ 0 ≤ (view_safeCurrentPage p st - 1) * pageSize p
      < Z.max 1 (Z.of_nat (length (view_sorted p st)))
  ∧ 1 ≤ view_safeCurrentPage p st ≤ view_totalPages p st.
Proof.
  intros Hp Hcur.
  destruct (totalPages_bounds (view_sorted p st) (pageSize p) Hp)
    as (Ht1 & Htn & Htlast).
  assert (1 ≤ view_safeCurrentPage p st ≤ view_totalPages p st) as Hsafe
    by (unfold view_safeCurrentPage, safeCurrentPage, view_totalPages; lia).
  unfold view_totalPages in Hsafe.
  assert (0 ≤ (view_safeCurrentPage p st - 1) * pageSize p
          < Z.max 1 (Z.of_nat (length (view_sorted p st)))) as Hstart.
  { destruct (decide (1 < totalPages (view_sorted p st) (pageSize p)))
      as [Hmany|Hone]; [specialize (Htlast Hmany)|]; nia. }
  split; [|done].
  unfold view_paginated. rewrite paginated_window by lia.
  rewrite length_take, length_drop. lia.
Qed.

(** X10: in a reachable state and with a page size of at least 1, the
    visible page holds at most page-size rows, and it is empty only
    when the sorted sequence is empty: a page number left over from a
    longer result never shows an empty table. *)
Theorem visible_page_size p st :
  reachable st → 1 ≤ pageSize p →
  Z.of_nat (length (view_paginated p st)) ≤ pageSize p
  ∧ (view_paginated p st = [] ↔ view_sorted p st = [])
  ∧ (view_paginated p st = [] ↔ view_filtered p st = []).
Proof.
  intros Hr%reachable_currentPage Hp.
  destruct (view_paginated_length p st Hp Hr) as (Hlen & Hstart & Hsafe).
  split; [lia|].
  assert (view_paginated p st = [] ↔ view_sorted p st = []) as Hiff.
  { rewrite <- !length_zero_iff_nil. lia. }
  split; [done|]. rewrite Hiff. unfold view_sorted.
  rewrite <- !length_zero_iff_nil.
  by rewrite (Permutation_length (sorted_perm_any _ _ _)).
Qed.

(** X11: in a reachable state, when the table is not loading and the
    page size is at least 1, the body is the empty-state placeholder
    exactly when no record passes the filter; otherwise it is the rows
    of the visible page. *)
Theorem body_empty_iff p st :
  reachable st → 1 ≤ pageSize p → loading p = false →
  (body p st = EmptyRow ↔ view_filtered p st = [])
  ∧ (view_filtered p st ≠ [] → body p st = Rows (view_paginated p st)).
Proof.
  intros Hr%reachable_currentPage Hp Hload.
  destruct (view_paginated_length p st Hp Hr) as (Hlen & Hstart & Hsafe).
  assert (length (view_sorted p st) = length (view_filtered p st)) as Hperm
    by (unfold view_sorted; by rewrite (Permutation_length (sorted_perm_any _ _ _))).
  unfold body. rewrite Hload.
  destruct (Z.of_nat (length (view_paginated p st)) =? 0) eqn:Hz.
  - apply Z.eqb_eq in Hz.
    assert (view_filtered p st = []) as Hnil
      by (apply length_zero_iff_nil; lia).
    split; [done|]. by intros H.
  - apply Z.eqb_neq in Hz. split; [|done].
    split; [done|]. intros Hnil%length_zero_iff_nil. lia.
Qed.

(** X12: when the pagination line is shown, in a reachable state and
    with a page size of at least 1, "Showing from-to of n" numbers
    exactly the visible rows: 1 ≤ from ≤ to ≤ n and to − from + 1 is
    the number of rows on the page. *)
Theorem showing_range p st :
  reachable st → 1 ≤ pageSize p → paginationShown p st = true →
  1 ≤ showingFrom p st ≤ showingTo p st
  ∧ showingTo p st ≤ Z.of_nat (length (view_sorted p st))
  ∧ showingTo p st - showingFrom p st + 1
    = Z.of_nat (length (view_paginated p st)).
Proof.
  intros Hr%reachable_currentPage Hp Hshown.
  destruct (view_paginated_length p st Hp Hr) as (Hlen & Hstart & Hsafe).
  unfold paginationShown in Hshown.
  apply andb_true_iff in Hshown as [_ Hn%Z.ltb_lt].
  unfold showingFrom, showingTo. nia.
Qed.

(** X13: for a page size of at least 1 and a table that is not loading,
    the pagination line is shown exactly when there is more than one
    page. *)
Theorem paginationShown_iff p st :
  1 ≤ pageSize p → loading p = false →
  (paginationShown p st = true ↔ 1 < view_totalPages p st).
Proof.
  intros Hp Hload. unfold paginationShown. rewrite Hload. simpl.
  rewrite Z.ltb_lt. unfold view_totalPages, totalPages.
  pose proof (ceil_div_spec (Z.of_nat (length (view_sorted p st)))
                (pageSize p) ltac:(lia)).
  split; intros H1; nia.
Qed.

(** *** Page navigation *)

(** X14: when the Next button is enabled, a click moves the visible
    page forward by exactly one and touches nothing else. *)
Theorem next_advances p st :
  enabled p st EvNext →
  view_safeCurrentPage p (step p st EvNext).1 = view_safeCurrentPage p st + 1
  ∧ currentPage (step p st EvNext).1 = currentPage st + 1
  ∧ search (step p st EvNext).1 = search st
  ∧ sortState (step p st EvNext).1 = sortState st
  ∧ selected (step p st EvNext).1 = selected st.
Proof.
  intros [_ Hlt]. simpl.
  change (view_safeCurrentPage p (onNext p st))
    with (Z.min (Z.min (view_totalPages p st) (currentPage st + 1))
                (view_totalPages p st)).
  unfold view_safeCurrentPage, safeCurrentPage in *. repeat split; lia.
Qed.

(** X15: when the Prev button is enabled, a click lowers the stored
    page number by one.  If that number was within the pages, the
    visible page goes back by exactly one; if it was beyond the last
    page (the result had shrunk under it), the visible page stays the
    last one. *)
Theorem prev_goes_back p st :
  enabled p st EvPrev →
  currentPage (step p st EvPrev).1 = currentPage st - 1
  ∧ (currentPage st ≤ view_totalPages p st →
     view_safeCurrentPage p (step p st EvPrev).1
     = view_safeCurrentPage p st - 1)
  ∧ (view_totalPages p st < currentPage st →
     view_safeCurrentPage p (step p st EvPrev).1 = view_safeCurrentPage p st).
Proof.
  intros [_ Hgt]. simpl.
  change (view_safeCurrentPage p (onPrev st))
    with (Z.min (Z.max 1 (currentPage st - 1)) (view_totalPages p st)).
  unfold view_safeCurrentPage, safeCurrentPage in *. repeat split; lia.
Qed.

(** X16: a click on a numbered button makes that number the visible
    page; the number is always one of the existing pages. *)
Theorem page_button_goes_to p st page :
  enabled p st (EvPage page) →
  1 ≤ page ≤ view_totalPages p st
  ∧ view_safeCurrentPage p (step p st (EvPage page)).1 = page.
Proof.
  intros [_ Hin%pageButtons_range]. split; [done|]. simpl.
  change (view_safeCurrentPage p (setCurrentPage st page))
    with (Z.min page (view_totalPages p st)).
  lia.
Qed.





(** X18: the first window after a search edit: with a page size of at
    least 1, the visible page after any edit of the search text is the
    first page-size records of the newly filtered and sorted
    sequence. *)
Theorem search_shows_first_page p st v :
  1 ≤ pageSize p →
  view_paginated p (onSearchChange st v)
  = take (Z.to_nat (pageSize p))
         (sorted (filtered (columns p) (data p) v) (sortKey st) (sortDir st)).
Proof.
  intros Hp.
  pose proof (totalPages_pos (view_sorted p (onSearchChange st v)) (pageSize p))
    as Ht.
  unfold view_paginated, view_safeCurrentPage, safeCurrentPage, view_totalPages.
  simpl currentPage. rewrite Z.min_l by done.
  rewrite paginated_window by lia. done.
Qed.

(** *** Further properties of the selection *)

Lemma State_eq st st' :
  search st = search st' → sortKey st = sortKey st' →
  sortDir st = sortDir st' → currentPage st = currentPage st' →
  selected st = selected st' → st = st'.
Proof. destruct st, st'; simpl; intros; by subst. Qed.

(** X19: toggling the same row twice gives back the state it started
    from, whatever the selection was. *)
Theorem toggleRow_twice p st id :
  (toggleRow p (toggleRow p st id).1 id).1 = st.
Proof.
  apply State_eq; try done. apply set_eq. intros x.
  rewrite toggleRow_selected. case_decide as Hx.
  - subst x. rewrite toggleRow_selected. rewrite decide_True by done.
    destruct (decide (id ∈ selected st)); tauto.
  - rewrite toggleRow_selected. by rewrite decide_False.
Qed.

(** X20: toggles of two rows commute: the order of the clicks does not
    matter for the state reached. *)
Theorem toggleRow_commute p st id1 id2 :
  (toggleRow p (toggleRow p st id1).1 id2).1
  = (toggleRow p (toggleRow p st id2).1 id1).1.
Proof.
  apply State_eq; try done. apply set_eq. intros x.
  rewrite (toggleRow_selected p (toggleRow p st id1).1 id2 x).
  rewrite (toggleRow_selected p (toggleRow p st id2).1 id1 x).
  pose proof (toggleRow_selected p st id1 x) as H1.
  pose proof (toggleRow_selected p st id2 x) as H2.
  repeat case_decide; tauto.
Qed.

Lemma toggleAll_all_or_none p st :
  allVisibleSelected p (toggleAll p st).1
  ∨ noVisibleSelected p (toggleAll p st).1.
Proof.
  destruct (allVisibleSelected_dec p st) as [Hall|Hnot].
  - right. intros id Hid. rewrite toggleAll_selected_all by done.
    rewrite elem_of_difference, elem_of_list_to_set.
    change (visibleIds p (toggleAll p st).1) with (visibleIds p st) in Hid.
    tauto.
  - left. by apply toggleAll_some_then_all.
Qed.

(** X21: after one select-all the visible page is either fully
    selected or fully unselected, so a third select-all in a row gives
    the state of the first. *)
Theorem toggleAll_thrice p st :
  (allVisibleSelected p (toggleAll p st).1
   ∨ noVisibleSelected p (toggleAll p st).1)
  ∧ (toggleAll p (toggleAll p (toggleAll p st).1).1).1 = (toggleAll p st).1.
Proof.
  pose proof (toggleAll_all_or_none p st) as Hcase.
  split; [done|]. apply State_eq; try done.
  by apply toggleAll_twice_selected.
Qed.

Lemma forallb_fmap {A B} (f : B → bool) (g : A → B) (l : list A) :
  forallb f (g <$> l) = forallb (fun x => f (g x)) l.
Proof. induction l as [|x l IH]; simpl; [done | by f_equal]. Qed.

Lemma selectAllChecked_spec p st :
  selectAllChecked p st = true
  ↔ view_paginated p st ≠ [] ∧ allVisibleSelected p st.
Proof.
  unfold selectAllChecked, allVisibleSelected, visibleIds.
  rewrite andb_true_iff, Z.ltb_lt, <- every_has, forallb_fmap.
  rewrite <- length_zero_iff_nil. split; intros [H1 H2]; (split; [lia|done]).
Qed.

(** X22: the select-all checkbox toggles with the handler: on a
    non-empty page it is checked after a select-all exactly when it
    was unchecked before; on an empty page it is never checked. *)
Theorem selectAllChecked_toggles p st :
  selectAllChecked p (toggleAll p st).1
  = (0 <? Z.of_nat (length (view_paginated p st)))
    && negb (selectAllChecked p st).
Proof.
  apply Bool.eq_true_iff_eq.
  rewrite andb_true_iff, negb_true_iff, Z.ltb_lt, selectAllChecked_spec.
  change (view_paginated p (toggleAll p st).1) with (view_paginated p st).
  assert (0 < Z.of_nat (length (view_paginated p st))
          ↔ view_paginated p st ≠ []) as ->
    by (rewrite <- length_zero_iff_nil; lia).
  destruct (allVisibleSelected_dec p st) as [Hall|Hnot].
  - split.
    + intros [Hne Hall2]. exfalso.
      destruct (view_paginated p st) as [|r rows] eqn:Hrows; [done|].
      assert (id_of r ∈ visibleIds p st) as Hr
        by (unfold visibleIds; rewrite Hrows; by left).
      specialize (Hall2 (id_of r) Hr).
      rewrite toggleAll_selected_all in Hall2 by done.
      rewrite elem_of_difference, elem_of_list_to_set in Hall2. tauto.
    + intros [Hne Hunchecked]. exfalso.
      assert (selectAllChecked p st = true) as Hc
        by (by apply selectAllChecked_spec).
      congruence.
  - split.
    + intros [Hne _]. split; [done|].
      destruct (selectAllChecked p st) eqn:Hc; [|done].
      apply selectAllChecked_spec in Hc as [_ Hall]. done.
    + intros [Hne _]. split; [done|]. by apply toggleAll_some_then_all.
Qed.

(** X23: only the row checkboxes and the select-all checkbox touch the
    selection: a search edit, a header click and the three kinds of
    page buttons leave the selection set as it is and invoke no
    selection callback. *)
Theorem selection_untouched p st ev :
  (∀ id, ev ≠ EvRow id) → ev ≠ EvSelectAll →
  selected (step p st ev).1 = selected st
  ∧ (∀ rows, SelectionChange rows ∉ (step p st ev).2).
Proof.
  intros Hrow Hall. destruct ev; simpl; try done.
  - split; [done|]. intros rows Hin. by apply elem_of_nil in Hin.
  - destruct (sortable col); simpl.
    + split; [done|]. intros rows Hin.
      destruct (onSort p); [|by apply elem_of_nil in Hin].
      apply list_elem_of_singleton in Hin. done.
    + split; [done|]. intros rows Hin. by apply elem_of_nil in Hin.
  - by destruct (Hrow id).
  - split; [done|]. intros rows Hin. by apply elem_of_nil in Hin.
  - split; [done|]. intros rows Hin. by apply elem_of_nil in Hin.
  - split; [done|]. intros rows Hin. by apply elem_of_nil in Hin.
Qed.


(** *** Further properties of the sort state *)

Lemma reachable_sortInvariant st : reachable st → sortInvariant st.
Proof.
  induction 1 as [|p st ev Hr IH Hen]; [done|].
  destruct ev; simpl; try done.
  destruct (sortable col); [|done].
  unfold sortInvariant, handleSort.
  case_decide; [destruct (sortDir st) as [[]|]|]; simpl; split; done.
Qed.

(** X25: in a state that satisfies the sort invariant and in which the
    column is the active one or no column is, three clicks on the
    header of that sortable column bring the sort state back to what
    it was: the cycle has period three from each of its states. *)
Theorem handleSort_period_three p col st :
  sortable col = true → sortInvariant st →
  sortKey st = Some (key col) ∨ sortKey st = None →
  sortState (activate p col (activate p col (activate p col st)))
  = sortState st.
Proof.
  intros Hsortable Hinv Hkey. unfold activate, step. rewrite Hsortable.
  unfold sortInvariant in Hinv. unfold sortState.
  destruct Hkey as [Hk0|Hk0].
  - destruct (sortDir st) as [[]|] eqn:Hd0.
    + destruct (handleSort_same p st (key col) Hk0) as [Hk1 Hd1].
      rewrite Hd0 in Hk1, Hd1.
      destruct (handleSort_same p _ (key col) Hk1) as [Hk2 Hd2].
      rewrite Hd1 in Hk2, Hd2.
      destruct (handleSort_other p
        (handleSort p (handleSort p st (key col)).1 (key col)).1 (key col))
        as [Hk3 Hd3]; [by rewrite Hk2|].
      by rewrite Hk3, Hd3, Hk0.
    + destruct (handleSort_same p st (key col) Hk0) as [Hk1 Hd1].
      rewrite Hd0 in Hk1, Hd1.
      destruct (handleSort_other p (handleSort p st (key col)).1 (key col))
        as [Hk2 Hd2]; [by rewrite Hk1|].
      destruct (handleSort_same p _ (key col) Hk2) as [Hk3 Hd3].
      rewrite Hd2 in Hk3, Hd3.
      by rewrite Hk3, Hd3, Hk0.
    + destruct Hinv as [Hinv _]. specialize (Hinv eq_refl). congruence.
  - destruct Hinv as [_ Hinv]. specialize (Hinv Hk0).
    destruct (handleSort_other p st (key col)) as [Hk1 Hd1];
      [by rewrite Hk0|].
    destruct (handleSort_same p _ (key col) Hk1) as [Hk2 Hd2].
    rewrite Hd1 in Hk2, Hd2.
    destruct (handleSort_same p _ (key col) Hk2) as [Hk3 Hd3].
    rewrite Hd2 in Hk3, Hd3.
    by rewrite Hk3, Hd3, Hk0, Hinv.
Qed.

(** X26: in a reachable state the header glyph and the [aria-sort]
    attribute tell the sort state: the up arrow and "ascending" show
    on the active column when the direction is ascending, the down
    arrow and "descending" on the active column when it is descending,
    and the neutral glyph and "none" on every other column; so at most
    one column key carries an arrow. *)
Theorem sortIcon_tells_state st col :
  reachable st →
  (sortIcon st (key col) = " ↑" ↔ sortState st = (Some (key col), Some asc))
  ∧ (sortIcon st (key col) = " ↓"
     ↔ sortState st = (Some (key col), Some desc))
  ∧ (sortIcon st (key col) = " ↕" ↔ sortKey st ≠ Some (key col))
  ∧ (ariaSort st col = "ascending"
     ↔ sortState st = (Some (key col), Some asc))
  ∧ (ariaSort st col = "descending"
     ↔ sortState st = (Some (key col), Some desc))
  ∧ (ariaSort st col = "none" ↔ sortKey st ≠ Some (key col)).
Proof.
  intros Hinv%reachable_sortInvariant.
  unfold sortInvariant in Hinv. unfold sortIcon, ariaSort, sortState.
  destruct (decide (sortKey st = Some (key col))) as [Hk|Hk].
  - rewrite Hk in *. destruct (sortDir st) as [[]|] eqn:Hd.
    + rewrite decide_True by done. repeat split; intros H; try done.
    + rewrite decide_False by done. repeat split; intros H; try done.
    + destruct Hinv as [Hinv _]. by specialize (Hinv eq_refl).
  - repeat split; intros H; try done; by injection H.
Qed.

End DataTable.

(** ** Concrete runs *)

Lemma Latin_localeCompare_antisym x y :
  Z.sgn (Latin.localeCompare y x) = - Z.sgn (Latin.localeCompare x y).
Proof.
  unfold Latin.localeCompare. rewrite (String.compare_antisym x y).
  by destruct (String.compare y x).
Qed.

(** The scenarios of the specification. *)

Example scenario_sort_cycle :
  let data := [Sample.row 1 "Bob"; Sample.row 2 "Alice"] in
  sorted Latin.localeCompare data (Some "name") (Some asc)
  = [Sample.row 2 "Alice"; Sample.row 1 "Bob"]
  ∧ sorted Latin.localeCompare data (Some "name") (Some desc)
    = [Sample.row 1 "Bob"; Sample.row 2 "Alice"]
  ∧ sorted Latin.localeCompare data None None = data.
Proof. by vm_compute. Qed.

Example scenario_page_out_of_range :
  let data := [Sample.row 1 "a"; Sample.row 2 "b"; Sample.row 3 "c"] in
  totalPages data 1 = 3
  ∧ safeCurrentPage 5 (totalPages data 1) = 3
  ∧ paginated data (safeCurrentPage 5 (totalPages data 1)) 1
    = [Sample.row 3 "c"].
Proof. by vm_compute. Qed.

Example scenario_deselect_all :
  let data := [Sample.row 1 "Bob"; Sample.row 2 "Alice"] in
  let st := setSelected initial {[VNumber 1; VNumber 2]} in
  let out :=
    toggleAll Latin.toLowerCase Latin.trim Latin.localeCompare
      (Sample.props data 10) st in
  elements (selected out.1) = [] ∧ out.2 = [SelectionChange []].
Proof. by vm_compute. Qed.

(** Instances of the theorems that carry hypotheses. *)

Lemma filtered_spec_witness :
  Latin.trim " LI" ≠ ""
  ∧ sublist
      (filtered Latin.toLowerCase Latin.trim [Sample.nameColumn]
         [Sample.row 1 "Alice"; Sample.row 2 "Bo Li"] " LI")
      [Sample.row 1 "Alice"; Sample.row 2 "Bo Li"]
  ∧ (∀ row,
       row ∈ filtered Latin.toLowerCase Latin.trim [Sample.nameColumn]
               [Sample.row 1 "Alice"; Sample.row 2 "Bo Li"] " LI" →
       matchesQuery Latin.toLowerCase (Latin.toLowerCase " LI")
         [Sample.nameColumn] row).
Proof.
  assert (Latin.trim " LI" ≠ "") as Hne by (by vm_compute).
  split; [exact Hne|].
  destruct (filtered_spec Latin.toLowerCase Latin.trim [Sample.nameColumn]
              [Sample.row 1 "Alice"; Sample.row 2 "Bo Li"] " LI" Hne)
    as (_ & Hsub & Hin & _).
  split; [exact Hsub | exact Hin].
Defined.

Lemma sorted_spec_witness :
  (∀ x y, Z.sgn (Latin.localeCompare y x) = - Z.sgn (Latin.localeCompare x y))
  ∧ "name" ≠ ""
  ∧ sorted Latin.localeCompare Sample.people (Some "name") (Some desc)
    ≡ₚ Sample.people
  ∧ (∀ i j a b, (i < j)%nat →
       sorted Latin.localeCompare Sample.people (Some "name") (Some desc)
         !! i = Some a →
       sorted Latin.localeCompare Sample.people (Some "name") (Some desc)
         !! j = Some b →
       isNullish (prop a "name") = true → isNullish (prop b "name") = true).
Proof.
  assert ("name" ≠ "") as Hk by done.
  split; [exact Latin_localeCompare_antisym|]. split; [exact Hk|].
  destruct (sorted_spec Latin.localeCompare Sample.people "name" desc
              Latin_localeCompare_antisym Hk) as (Hperm & _ & _ & Hnull).
  split; [exact Hperm | exact Hnull].
Defined.

Lemma pagination_spec_witness :
  1 ≤ 2 ∧ 1 ≤ 5
  ∧ 1 ≤ safeCurrentPage 5 (totalPages Sample.people 2)
      ≤ totalPages Sample.people 2
  ∧ concat ((fun k => paginated Sample.people
                        (safeCurrentPage k (totalPages Sample.people 2)) 2)
            <$> seqZ 1 (totalPages Sample.people 2))
    = Sample.people.
Proof.
  assert (1 ≤ 2) as Hp by lia. assert (1 ≤ 5) as Hcur by lia.
  split; [exact Hp|]. split; [exact Hcur|].
  destruct (pagination_spec Sample.people 2 5 Hp Hcur)
    as (_ & Hsafe & _ & _ & _ & Hcat).
  split; [exact Hsafe | exact Hcat].
Defined.

Lemma pageButtons_spec_witness :
  1 ≤ 4 ≤ 10
  ∧ ∃ first count,
      pageButtons 4 10 = Some <$> seqZ first count
      ∧ 0 ≤ count ≤ 5
      ∧ 1 ≤ first ∧ first + count - 1 ≤ 10
      ∧ first ≤ 4 < first + count
      ∧ (3 ≤ 4 ≤ 10 - 2 → first = 4 - 2 ∧ count = 5).
Proof.
  assert (1 ≤ 4 ≤ 10) as H by lia.
  split; [exact H | exact (pageButtons_spec 4 10 H)].
Defined.

Lemma handleSort_cycle_witness :
  sortable Sample.nameColumn = true
  ∧ sortKey initial ≠ Some (key Sample.nameColumn)
  ∧ sortState
      (activate Latin.toLowerCase Latin.trim Latin.localeCompare
         (Sample.props Sample.people 2) Sample.nameColumn
         (activate Latin.toLowerCase Latin.trim Latin.localeCompare
            (Sample.props Sample.people 2) Sample.nameColumn
            (activate Latin.toLowerCase Latin.trim Latin.localeCompare
               (Sample.props Sample.people 2) Sample.nameColumn initial)))
    = (None, None).
Proof.
  assert (sortable Sample.nameColumn = true) as Hs by reflexivity.
  assert (sortKey initial ≠ Some (key Sample.nameColumn)) as Hk by done.
  split; [exact Hs|]. split; [exact Hk|].
  destruct (handleSort_cycle Latin.toLowerCase Latin.trim Latin.localeCompare
              (Sample.props Sample.people 2) Sample.nameColumn initial
              Hs Hk) as (_ & _ & H3 & _).
  exact H3.
Defined.

Lemma select_all_twice_identity_witness :
  (allVisibleSelected Latin.toLowerCase Latin.trim Latin.localeCompare
     (Sample.props Sample.people 2) initial
   ∨ noVisibleSelected Latin.toLowerCase Latin.trim Latin.localeCompare
       (Sample.props Sample.people 2) initial)
  ∧ (toggleAll Latin.toLowerCase Latin.trim Latin.localeCompare
       (Sample.props Sample.people 2)
       (toggleAll Latin.toLowerCase Latin.trim Latin.localeCompare
          (Sample.props Sample.people 2) initial).1).1
    = initial.
Proof.
  assert (allVisibleSelected Latin.toLowerCase Latin.trim Latin.localeCompare
            (Sample.props Sample.people 2) initial
          ∨ noVisibleSelected Latin.toLowerCase Latin.trim Latin.localeCompare
              (Sample.props Sample.people 2) initial) as H.
  { right. intros id _. apply not_elem_of_empty. }
  split; [exact H|].
  exact (select_all_twice_identity Latin.toLowerCase Latin.trim Latin.localeCompare
           (Sample.props Sample.people 2) initial H).
Defined.

Lemma Latin_localeCompare_transitive :
  localeCompare_transitive Latin.localeCompare.
Proof.
  assert (∀ x y z, String.compare x y ≠ Gt → String.compare y z ≠ Gt →
                   String.compare x z ≠ Gt) as Htrans.
  { induction x as [|a x IH]; intros [|b y] [|c z]; simpl; try done.
    unfold Ascii.compare.
    destruct (N.compare_spec (N_of_ascii a) (N_of_ascii b)),
             (N.compare_spec (N_of_ascii b) (N_of_ascii c)),
             (N.compare_spec (N_of_ascii a) (N_of_ascii c));
      try done; try lia; eauto. }
  intros x y z. unfold Latin.localeCompare.
  specialize (Htrans x y z).
  destruct (String.compare x y), (String.compare y z),
           (String.compare x z); try lia; intros _ _; exfalso;
    by apply Htrans.
Qed.

Lemma filtered_excludes_nullish_witness :
  Latin.trim "null" ≠ ""
  ∧ (∀ col, col ∈ [Sample.nameColumn] →
            isNullish (prop (Sample.anonymous 7) (key col)) = true)
  ∧ Sample.anonymous 7
    ∉ filtered Latin.toLowerCase Latin.trim [Sample.nameColumn]
        Sample.people "null".
Proof.
  assert (Latin.trim "null" ≠ "") as Hne by (by vm_compute).
  assert (∀ col, col ∈ [Sample.nameColumn] →
                 isNullish (prop (Sample.anonymous 7) (key col)) = true)
    as Hnull by (intros col ->%list_elem_of_singleton; by vm_compute).
  split; [exact Hne|]. split; [exact Hnull|].
  exact (filtered_excludes_nullish Latin.toLowerCase Latin.trim
           [Sample.nameColumn] Sample.people "null" (Sample.anonymous 7)
           Hne Hnull).
Defined.

Lemma filtered_iff_cellText_witness :
  Latin.trim "LI" ≠ "" ∧ Latin.toLowerCase "" = ""
  ∧ Latin.toLowerCase "LI" ≠ "" ∧ Sample.row 2 "Alice" ∈ Sample.people
  ∧ (Sample.row 2 "Alice"
       ∈ filtered Latin.toLowerCase Latin.trim [Sample.nameColumn]
           Sample.people "LI"
     ↔ ∃ col, col ∈ [Sample.nameColumn]
              ∧ occursIn (Latin.toLowerCase "LI")
                  (Latin.toLowerCase (cellText (Sample.row 2 "Alice") col))).
Proof.
  assert (Latin.trim "LI" ≠ "") as H1 by (by vm_compute).
  assert (Latin.toLowerCase "" = "") as H2 by reflexivity.
  assert (Latin.toLowerCase "LI" ≠ "") as H3 by (by vm_compute).
  assert (Sample.row 2 "Alice" ∈ Sample.people) as H4
    by (apply list_elem_of_In; simpl; auto).
  split; [exact H1|]. split; [exact H2|]. split; [exact H3|].
  split; [exact H4|].
  exact (filtered_iff_cellText Latin.toLowerCase Latin.trim
           [Sample.nameColumn] Sample.people "LI" (Sample.row 2 "Alice")
           H1 H2 H3 H4).
Defined.

Lemma sorted_all_pairs_witness :
  localeCompare_antisymmetric Latin.localeCompare
  ∧ localeCompare_transitive Latin.localeCompare
  ∧ "name" ≠ ""
  ∧ ∀ i j a b, (i < j)%nat →
      sorted Latin.localeCompare Sample.people (Some "name") (Some asc)
        !! i = Some a →
      sorted Latin.localeCompare Sample.people (Some "name") (Some asc)
        !! j = Some b →
      isNullish (prop a "name") = false → isNullish (prop b "name") = false →
      Latin.localeCompare (String_ (prop a "name")) (String_ (prop b "name"))
      ≤ 0.
Proof.
  assert ("name" ≠ "") as Hk by done.
  split; [exact Latin_localeCompare_antisym|].
  split; [exact Latin_localeCompare_transitive|]. split; [exact Hk|].
  exact (sorted_all_pairs Latin.localeCompare Sample.people "name" asc
           Latin_localeCompare_antisym Latin_localeCompare_transitive Hk).
Defined.

Lemma sorted_stable_witness :
  localeCompare_antisymmetric Latin.localeCompare
  ∧ localeCompare_transitive Latin.localeCompare
  ∧ "name" ≠ ""
  ∧ List.filter (showsText "name" "Bob")
      (sorted Latin.localeCompare
         [Sample.row 1 "Bob"; Sample.row 2 "Alice"; Sample.row 3 "Bob"]
         (Some "name") (Some desc))
    = List.filter (showsText "name" "Bob")
        [Sample.row 1 "Bob"; Sample.row 2 "Alice"; Sample.row 3 "Bob"].
Proof.
  assert ("name" ≠ "") as Hk by done.
  split; [exact Latin_localeCompare_antisym|].
  split; [exact Latin_localeCompare_transitive|]. split; [exact Hk|].
  exact (sorted_stable Latin.localeCompare
           [Sample.row 1 "Bob"; Sample.row 2 "Alice"; Sample.row 3 "Bob"]
           "name" "Bob" desc
           Latin_localeCompare_antisym Latin_localeCompare_transitive Hk).
Defined.

Lemma visible_page_size_witness :
  reachable Latin.toLowerCase Latin.trim Latin.localeCompare initial
  ∧ 1 ≤ pageSize (Sample.props Sample.people 2)
  ∧ Z.of_nat (length (view_paginated Latin.toLowerCase Latin.trim Latin.localeCompare (Sample.props Sample.people 2) initial)) ≤ pageSize (Sample.props Sample.people 2)
  ∧ (view_paginated Latin.toLowerCase Latin.trim Latin.localeCompare (Sample.props Sample.people 2) initial = [] ↔ view_sorted Latin.toLowerCase Latin.trim Latin.localeCompare (Sample.props Sample.people 2) initial = [])
  ∧ (view_paginated Latin.toLowerCase Latin.trim Latin.localeCompare (Sample.props Sample.people 2) initial = []
     ↔ view_filtered Latin.toLowerCase Latin.trim (Sample.props Sample.people 2) initial = []).
Proof.
  assert (1 ≤ pageSize (Sample.props Sample.people 2)) as Hp by (by vm_compute).
  split; [apply reachable_initial|]. split; [exact Hp|].
  exact (visible_page_size Latin.toLowerCase Latin.trim Latin.localeCompare (Sample.props Sample.people 2) initial (reachable_initial Latin.toLowerCase Latin.trim Latin.localeCompare) Hp).
Defined.

Lemma body_empty_iff_witness :
  reachable Latin.toLowerCase Latin.trim Latin.localeCompare initial
  ∧ 1 ≤ pageSize (Sample.props Sample.people 2) ∧ loading (Sample.props Sample.people 2) = false
  ∧ (body Latin.toLowerCase Latin.trim Latin.localeCompare (Sample.props Sample.people 2) initial = EmptyRow
     ↔ view_filtered Latin.toLowerCase Latin.trim (Sample.props Sample.people 2) initial = [])
  ∧ (view_filtered Latin.toLowerCase Latin.trim (Sample.props Sample.people 2) initial ≠ [] →
     body Latin.toLowerCase Latin.trim Latin.localeCompare (Sample.props Sample.people 2) initial = Rows (view_paginated Latin.toLowerCase Latin.trim Latin.localeCompare (Sample.props Sample.people 2) initial)).
Proof.
  assert (1 ≤ pageSize (Sample.props Sample.people 2)) as Hp by (by vm_compute).
  assert (loading (Sample.props Sample.people 2) = false) as Hl by reflexivity.
  split; [apply reachable_initial|]. split; [exact Hp|]. split; [exact Hl|].
  exact (body_empty_iff Latin.toLowerCase Latin.trim Latin.localeCompare (Sample.props Sample.people 2) initial (reachable_initial Latin.toLowerCase Latin.trim Latin.localeCompare) Hp Hl).
Defined.

Lemma showing_range_witness :
  reachable Latin.toLowerCase Latin.trim Latin.localeCompare initial
  ∧ 1 ≤ pageSize (Sample.props Sample.people 2) ∧ paginationShown Latin.toLowerCase Latin.trim Latin.localeCompare (Sample.props Sample.people 2) initial = true
  ∧ 1 ≤ showingFrom Latin.toLowerCase Latin.trim Latin.localeCompare (Sample.props Sample.people 2) initial ≤ showingTo Latin.toLowerCase Latin.trim Latin.localeCompare (Sample.props Sample.people 2) initial
  ∧ showingTo Latin.toLowerCase Latin.trim Latin.localeCompare (Sample.props Sample.people 2) initial ≤ Z.of_nat (length (view_sorted Latin.toLowerCase Latin.trim Latin.localeCompare (Sample.props Sample.people 2) initial))
  ∧ showingTo Latin.toLowerCase Latin.trim Latin.localeCompare (Sample.props Sample.people 2) initial - showingFrom Latin.toLowerCase Latin.trim Latin.localeCompare (Sample.props Sample.people 2) initial + 1
    = Z.of_nat (length (view_paginated Latin.toLowerCase Latin.trim Latin.localeCompare (Sample.props Sample.people 2) initial)).
Proof.
  assert (1 ≤ pageSize (Sample.props Sample.people 2)) as Hp by (by vm_compute).
  assert (paginationShown Latin.toLowerCase Latin.trim Latin.localeCompare (Sample.props Sample.people 2) initial = true) as Hs by (by vm_compute).
  split; [apply reachable_initial|]. split; [exact Hp|]. split; [exact Hs|].
  exact (showing_range Latin.toLowerCase Latin.trim Latin.localeCompare (Sample.props Sample.people 2) initial (reachable_initial Latin.toLowerCase Latin.trim Latin.localeCompare) Hp Hs).
Defined.

Lemma paginationShown_iff_witness :
  1 ≤ pageSize (Sample.props Sample.people 2) ∧ loading (Sample.props Sample.people 2) = false
  ∧ (paginationShown Latin.toLowerCase Latin.trim Latin.localeCompare (Sample.props Sample.people 2) initial = true
     ↔ 1 < view_totalPages Latin.toLowerCase Latin.trim Latin.localeCompare (Sample.props Sample.people 2) initial).
Proof.
  assert (1 ≤ pageSize (Sample.props Sample.people 2)) as Hp by (by vm_compute).
  assert (loading (Sample.props Sample.people 2) = false) as Hl by reflexivity.
  split; [exact Hp|]. split; [exact Hl|].
  exact (paginationShown_iff Latin.toLowerCase Latin.trim Latin.localeCompare (Sample.props Sample.people 2) initial Hp Hl).
Defined.

Lemma next_advances_witness :
  enabled Latin.toLowerCase Latin.trim Latin.localeCompare (Sample.props Sample.people 2) initial EvNext
  ∧ view_safeCurrentPage Latin.toLowerCase Latin.trim Latin.localeCompare (Sample.props Sample.people 2) (step Latin.toLowerCase Latin.trim Latin.localeCompare (Sample.props Sample.people 2) initial EvNext).1
    = view_safeCurrentPage Latin.toLowerCase Latin.trim Latin.localeCompare (Sample.props Sample.people 2) initial + 1.
Proof.
  assert (enabled Latin.toLowerCase Latin.trim Latin.localeCompare (Sample.props Sample.people 2) initial EvNext) as Hen
    by (split; by vm_compute).
  split; [exact Hen|].
  exact (proj1 (next_advances Latin.toLowerCase Latin.trim Latin.localeCompare (Sample.props Sample.people 2) initial Hen)).
Defined.

Lemma prev_goes_back_witness :
  enabled Latin.toLowerCase Latin.trim Latin.localeCompare (Sample.props Sample.people 2) (setCurrentPage initial 3) EvPrev
  ∧ currentPage (step Latin.toLowerCase Latin.trim Latin.localeCompare (Sample.props Sample.people 2) (setCurrentPage initial 3) EvPrev).1
    = currentPage (setCurrentPage initial 3) - 1.
Proof.
  assert (enabled Latin.toLowerCase Latin.trim Latin.localeCompare (Sample.props Sample.people 2) (setCurrentPage initial 3) EvPrev) as Hen
    by (split; by vm_compute).
  split; [exact Hen|].
  exact (proj1 (prev_goes_back Latin.toLowerCase Latin.trim Latin.localeCompare (Sample.props Sample.people 2) (setCurrentPage initial 3) Hen)).
Defined.

Lemma page_button_goes_to_witness :
  enabled Latin.toLowerCase Latin.trim Latin.localeCompare (Sample.props Sample.people 2) initial (EvPage 2)
  ∧ 1 ≤ 2 ≤ view_totalPages Latin.toLowerCase Latin.trim Latin.localeCompare (Sample.props Sample.people 2) initial
  ∧ view_safeCurrentPage Latin.toLowerCase Latin.trim Latin.localeCompare (Sample.props Sample.people 2) (step Latin.toLowerCase Latin.trim Latin.localeCompare (Sample.props Sample.people 2) initial (EvPage 2)).1 = 2.
Proof.
  assert (enabled Latin.toLowerCase Latin.trim Latin.localeCompare (Sample.props Sample.people 2) initial (EvPage 2)) as Hen.
  { split; [by vm_compute|]. apply list_elem_of_In. vm_compute.
    right. left. reflexivity. }
  split; [exact Hen|].
  exact (page_button_goes_to Latin.toLowerCase Latin.trim Latin.localeCompare (Sample.props Sample.people 2) initial 2 Hen).
Defined.


Lemma search_shows_first_page_witness :
  1 ≤ pageSize (Sample.props Sample.people 2)
  ∧ view_paginated Latin.toLowerCase Latin.trim Latin.localeCompare (Sample.props Sample.people 2) (onSearchChange initial "b")
    = take (Z.to_nat (pageSize (Sample.props Sample.people 2)))
        (sorted Latin.localeCompare
           (filtered Latin.toLowerCase Latin.trim (columns (Sample.props Sample.people 2)) (data (Sample.props Sample.people 2)) "b")
           (sortKey initial) (sortDir initial)).
Proof.
  assert (1 ≤ pageSize (Sample.props Sample.people 2)) as Hp by (by vm_compute).
  split; [exact Hp|].
  exact (search_shows_first_page Latin.toLowerCase Latin.trim Latin.localeCompare (Sample.props Sample.people 2) initial "b" Hp).
Defined.

Lemma selection_untouched_witness :
  (∀ id, EvSearch "b" ≠ EvRow id) ∧ EvSearch "b" ≠ EvSelectAll
  ∧ selected (step Latin.toLowerCase Latin.trim Latin.localeCompare (Sample.props Sample.people 2) (setSelected initial {[VNumber 1]}) (EvSearch "b")).1
    = selected (setSelected initial {[VNumber 1]})
  ∧ (∀ rows,
       SelectionChange rows
       ∉ (step Latin.toLowerCase Latin.trim Latin.localeCompare (Sample.props Sample.people 2) (setSelected initial {[VNumber 1]}) (EvSearch "b")).2).
Proof.
  assert (∀ id, EvSearch "b" ≠ EvRow id) as H1 by done.
  assert (EvSearch "b" ≠ EvSelectAll) as H2 by done.
  split; [exact H1|]. split; [exact H2|].
  exact (selection_untouched Latin.toLowerCase Latin.trim Latin.localeCompare (Sample.props Sample.people 2) (setSelected initial {[VNumber 1]})
           (EvSearch "b") H1 H2).
Defined.


Lemma handleSort_period_three_witness :
  sortable Sample.nameColumn = true ∧ sortInvariant initial
  ∧ (sortKey initial = Some (key Sample.nameColumn) ∨ sortKey initial = None)
  ∧ sortState
      (activate Latin.toLowerCase Latin.trim Latin.localeCompare (Sample.props Sample.people 2) Sample.nameColumn
         (activate Latin.toLowerCase Latin.trim Latin.localeCompare (Sample.props Sample.people 2) Sample.nameColumn
            (activate Latin.toLowerCase Latin.trim Latin.localeCompare (Sample.props Sample.people 2) Sample.nameColumn initial)))
    = sortState initial.
Proof.
  assert (sortable Sample.nameColumn = true) as H1 by reflexivity.
  assert (sortInvariant initial) as H2 by done.
  assert (sortKey initial = Some (key Sample.nameColumn)
          ∨ sortKey initial = None) as H3 by (by right).
  split; [exact H1|]. split; [exact H2|]. split; [exact H3|].
  exact (handleSort_period_three Latin.toLowerCase Latin.trim Latin.localeCompare (Sample.props Sample.people 2) Sample.nameColumn initial H1 H2 H3).
Defined.

Lemma sortIcon_tells_state_witness :
  reachable Latin.toLowerCase Latin.trim Latin.localeCompare initial
  ∧ (sortIcon initial (key Sample.nameColumn) = " ↕"
     ↔ sortKey initial ≠ Some (key Sample.nameColumn)).
Proof.
  split; [apply reachable_initial|].
  destruct (sortIcon_tells_state Latin.toLowerCase Latin.trim Latin.localeCompare initial Sample.nameColumn
              (reachable_initial Latin.toLowerCase Latin.trim Latin.localeCompare)) as (_ & _ & H & _).
  exact H.
Defined.

(** Inputs on which a property fails as the specification words it. *)

(** C1 (as stated) fails: the search ["a "] trims to ["a"], which
    ["alice"] contains, yet the record is filtered out, since the code
    looks for ["a "] with its trailing space. *)
Lemma filters_by_trimmed_query_counterexample :
  ¬ filters_by_trimmed_query Latin.toLowerCase Latin.trim
      [Sample.nameColumn] [Sample.row 1 "Alice"] "a ".
Proof.
  intros H. destruct H as (keep & Hkeep & Heq); [by vm_compute|].
  assert (keep (Sample.row 1 "Alice") = true) as Hk.
  { apply Hkeep. exists Sample.nameColumn. split; [by left|].
    split; [by vm_compute|]. exists "", "lice". by vm_compute. }
  assert (Sample.row 1 "Alice" ∈ List.filter keep [Sample.row 1 "Alice"])
    as Hin by (simpl; rewrite Hk; by left).
  rewrite <- Heq in Hin. vm_compute in Hin. by apply elem_of_nil in Hin.
Qed.

(** C2 (as stated) fails: with rows 1 and 7 on the page and only 1
    selected, the first select-all selects both and the second
    deselects both, so 1 has lost its membership. *)
Lemma select_all_twice_partial_counterexample :
  ¬ toggleAll_twice_restores_page Latin.toLowerCase Latin.trim
      Latin.localeCompare (Sample.props Sample.people 2)
      (setSelected initial {[VNumber 1]}).
Proof.
  intros H. specialize (H (VNumber 1)).
  destruct H as [_ H].
  - apply list_elem_of_In. vm_compute. by left.
  - assert (bool_decide
      (VNumber 1 ∈ selected
         (toggleAll Latin.toLowerCase Latin.trim Latin.localeCompare
            (Sample.props Sample.people 2)
            (toggleAll Latin.toLowerCase Latin.trim Latin.localeCompare
               (Sample.props Sample.people 2)
               (setSelected initial {[VNumber 1]})).1).1) = false) as Hout
      by (by vm_compute).
    apply bool_decide_eq_false_1 in Hout. apply Hout, H.
    simpl. by apply elem_of_singleton.
Qed.
